(** * led_monger: rotary encoder, potentiometer, LED programs and main loop

    A shallow embedding of [RotaryEncoder.h], [Potentiometer.h],
    [LedProgram.h] and the [loop()] of [led_monger.ino], and the
    properties of the specification settled against it.

    Conventions.
    - [uint8_t] values are integers in [Z]; every store into an 8-bit
      field is followed by the wrap-around [u8] (reduction modulo 256).
    - Bit manipulation uses [Z.lor], [Z.shiftl] and [Z.testbit].
    - Mutation of an object is explicit state passing: a member function
      takes the object and returns the updated object. *)

From Stdlib Require Import ZArith List Bool Lia Reals Lra.
From stdpp Require Import base option list gmap.
Import ListNotations.

Local Open Scope Z_scope.

(** ** Machine integers *)

Definition u8 (z : Z) : Z := z mod 256.

(** [bit_is_set(sfr, bit)] of avr-libc: [sfr & (1 << bit)] is non-zero. *)
Definition bit_is_set (sfr bit : Z) : bool := Z.testbit sfr bit.

(** ** RotaryEncoder.h *)

Module Rotary.

(** Result of [digitalRead]. *)
Inductive PinLevel := LOW | HIGH.

Definition is_low (l : PinLevel) : bool :=
  match l with LOW => true | HIGH => false end.

(** The data members of [class RotaryEncoder].  [seven_seg_] is a
    reference to the display; the model keeps the list of numbers printed
    through it, most recent first. *)
Record RotaryEncoder := mkEnc {
  seven_seg_ : list Z;
  pin_a_ : Z;
  pin_b_ : Z;
  enc_prev_pos_ : Z;
  enc_flags_ : Z;
  rotary_index_ : Z;
  max_index_ : Z
}.

(** Lines 40-47 and 117-122: the two pins read into a 2-bit position,
    bit 0 for pin a being low and bit 1 for pin b being low. *)
Definition read_pos (a b : PinLevel) : Z :=
  let p := 0 in
  let p := if is_low a then u8 (Z.lor p (Z.shiftl 1 0)) else p in
  let p := if is_low b then u8 (Z.lor p (Z.shiftl 1 1)) else p in
  p.

(** [enc_flags_ |= (1 << k)]. *)
Definition set_flag (flags k : Z) : Z := u8 (Z.lor flags (Z.shiftl 1 k)).

(** Lines 52-61: the first edge out of position 0. *)
Definition first_edge (prev cur flags : Z) : Z :=
  if prev =? 0 then
    if cur =? 1 then set_flag flags 0
    else if cur =? 2 then set_flag flags 1
    else flags
  else flags.

(** Lines 71-76: the final edge, back into position 0. *)
Definition final_edge (prev flags : Z) : Z :=
  if prev =? 2 then set_flag flags 2
  else if prev =? 1 then set_flag flags 3
  else flags.

(** Lines 81-88: the decision taken on the flags when position 0 is
    reached; the new counter and the [change] variable. *)
Definition decide_step (flags index : Z) : Z * bool :=
  if bit_is_set flags 0 && (bit_is_set flags 2 || bit_is_set flags 4)
  then (u8 (index + 1), true)
  else if bit_is_set flags 1 && (bit_is_set flags 3 || bit_is_set flags 4)
  then (u8 (index - 1), true)
  else (index, false).

(** The body of [pin_isr] on the object [enc] (lines 35-103), given the
    levels the two [digitalRead] calls return. *)
Definition pin_isr_body (enc : RotaryEncoder) (a b : PinLevel) : RotaryEncoder :=
  let enc_cur_pos := read_pos a b in
  let prev := enc_prev_pos_ enc in
  let '(flags, index, change) :=
    if negb (enc_cur_pos =? prev) then
      let flags := first_edge prev enc_cur_pos (enc_flags_ enc) in
      if enc_cur_pos =? 3 then
        (set_flag flags 4, rotary_index_ enc, false)
      else if enc_cur_pos =? 0 then
        let flags := final_edge prev flags in
        let '(index, change) := decide_step flags (rotary_index_ enc) in
        (0, index, change)
      else (flags, rotary_index_ enc, false)
    else (enc_flags_ enc, rotary_index_ enc, false) in
  {| seven_seg_ :=
       if change : bool
       then (index mod max_index_ enc) :: seven_seg_ enc
       else seven_seg_ enc;
     pin_a_ := pin_a_ enc;
     pin_b_ := pin_b_ enc;
     enc_prev_pos_ := enc_cur_pos;
     enc_flags_ := flags;
     rotary_index_ := index;
     max_index_ := max_index_ enc |}.

(** The object the constructor builds (lines 107-122): all counters zero
    and the previous position read from the pins. *)
Definition RotaryEncoder_new (pin_a pin_b max_index : Z) (seven_seg : list Z)
    (a b : PinLevel) : RotaryEncoder :=
  {| seven_seg_ := seven_seg;
     pin_a_ := u8 pin_a;
     pin_b_ := u8 pin_b;
     enc_prev_pos_ := read_pos a b;
     enc_flags_ := 0;
     rotary_index_ := 0;
     max_index_ := u8 max_index |}.

(** [getIndex] (lines 139-146): a copy of the counter taken with
    interrupts off, reduced modulo [max_index_]. *)
Definition getIndex (enc : RotaryEncoder) : Z :=
  let index := rotary_index_ enc in
  u8 (index mod max_index_ enc).

(** *** Pin-state sequences *)

(** The pin levels that make the handler read position [p]. *)
Definition pins_of_pos (p : Z) : PinLevel * PinLevel :=
  (if Z.testbit p 0 then LOW else HIGH, if Z.testbit p 1 then LOW else HIGH).

(** One invocation of the handler with the pins at position [p]. *)
Definition isr_at (enc : RotaryEncoder) (p : Z) : RotaryEncoder :=
  pin_isr_body enc (fst (pins_of_pos p)) (snd (pins_of_pos p)).

(** The handler invoked once for every position of a sequence. *)
Definition run (enc : RotaryEncoder) (ps : list Z) : RotaryEncoder :=
  fold_left isr_at ps enc.

(** The positions after the starting 00 of the two clean quarter turns. *)
Definition cw_turn : list Z := [1; 3; 2; 0].
Definition ccw_turn : list Z := [2; 3; 1; 0].

(** The value [enc_flags_] has at line 81 when the handler, invoked on
    [enc], reads position 0 after another position: the flags after
    lines 52-61 and 71-76. *)
Definition flags_at_check (enc : RotaryEncoder) : Z :=
  final_edge (enc_prev_pos_ enc)
    (first_edge (enc_prev_pos_ enc) 0 (enc_flags_ enc)).

(** Quarter turns, one after the other. *)
Inductive Dir := CW | CCW.

Definition turn (d : Dir) : list Z :=
  match d with CW => cw_turn | CCW => ccw_turn end.

Definition run_turns (enc : RotaryEncoder) (ds : list Dir) : RotaryEncoder :=
  fold_left (fun e d => run e (turn d)) ds enc.

Definition is_cw (d : Dir) : bool := match d with CW => true | CCW => false end.

(** The number of clockwise and of counter-clockwise turns of a list. *)
Definition count_cw (ds : list Dir) : Z :=
  Z.of_nat (length (List.filter is_cw ds)).
Definition count_ccw (ds : list Dir) : Z :=
  Z.of_nat (length (List.filter (fun d => negb (is_cw d)) ds)).

(** States of a decoder: what the constructor builds, followed by any
    number of handler invocations with any pin levels. *)
Inductive reachable : RotaryEncoder -> Prop :=
| reach_new pin_a pin_b max_index seg a b :
    reachable (RotaryEncoder_new pin_a pin_b max_index seg a b)
| reach_isr enc a b :
    reachable enc -> reachable (pin_isr_body enc a b).

(** The invariant of the decoder: the fields hold what their types
    allow, and the flags are clear whenever the encoder rests at 00. *)
Definition wf (enc : RotaryEncoder) : Prop :=
  0 <= enc_prev_pos_ enc <= 3 /\
  0 <= rotary_index_ enc < 256 /\
  (enc_prev_pos_ enc = 0 -> enc_flags_ enc = 0).

(** *** The static [instance_] pointer

    Objects live in a heap keyed by their address; [instance_] is the
    static member, [None] for [NULL]; [attached] holds the pins whose
    interrupt has [pin_isr] attached. *)
Record World := mkWorld {
  instance_ : option positive;
  heap : gmap positive RotaryEncoder;
  attached : gset Z
}.

(** What the program starts with: line 149, no object, no interrupt. *)
Definition World_start : World :=
  {| instance_ := None; heap := ∅; attached := ∅ |}.

(** The constructor (lines 107-129) run for the object at address
    [this]; [digitalRead] gives the level of each pin.  It has no path
    that throws, aborts or reports an error: it returns the next world. *)
Definition RotaryEncoder_ctor (this : positive) (pin_a pin_b max_index : Z)
    (seven_seg : list Z) (digitalRead : Z -> PinLevel) (w : World) : World :=
  let enc := RotaryEncoder_new pin_a pin_b max_index seven_seg
               (digitalRead (u8 pin_a)) (digitalRead (u8 pin_b)) in
  {| instance_ :=
       match instance_ w with
       | None => Some this
       | Some first => Some first
       end;
     heap := <[this := enc]> (heap w);
     attached := {[u8 pin_a; u8 pin_b]} ∪ attached w |}.

(** [pin_isr] (lines 31-104): the handler works on [*instance_],
    whichever pin fired.  [None] stands for the dereference of a null
    or dangling [instance_]. *)
Definition pin_isr (digitalRead : Z -> PinLevel) (w : World) : option World :=
  match instance_ w with
  | None => None
  | Some p =>
      match heap w !! p with
      | None => None
      | Some enc =>
          let enc' := pin_isr_body enc (digitalRead (pin_a_ enc))
                                       (digitalRead (pin_b_ enc)) in
          Some {| instance_ := instance_ w;
                  heap := <[p := enc']> (heap w);
                  attached := attached w |}
      end
  end.

(** The destructor (lines 131-135): the interrupts of the two pins are
    detached and the object is gone.  [instance_] is not written. *)
Definition RotaryEncoder_dtor (this : positive) (w : World) : World :=
  match heap w !! this with
  | None => w
  | Some enc =>
      {| instance_ := instance_ w;
         heap := delete this (heap w);
         attached := attached w ∖ {[pin_a_ enc; pin_b_ enc]} |}
  end.

(** The handler invoked once for every pair of pin levels of a list. *)
Definition run_levels (enc : RotaryEncoder) (ls : list (PinLevel * PinLevel))
    : RotaryEncoder :=
  fold_left (fun e ab => pin_isr_body e (fst ab) (snd ab)) ls enc.

End Rotary.

(** ** Potentiometer.h *)

Module Pot.

Definition LOG_BIN_SIZE_ : Z := 5.
Definition ADC_BITS_ : Z := 10.
Definition HYSTERESIS_ : Z := 8.
Definition ADC_TO_BIN_SHIFT_ : Z := u8 (ADC_BITS_ - LOG_BIN_SIZE_).
Definition BIN_SIZE_ : Z := u8 (Z.shiftl 1 LOG_BIN_SIZE_).

(** What a call of [update] hands back: the value of a [return]
    statement, or nothing when control reaches the closing brace of the
    function without passing a [return] (the caller then reads an
    unspecified value). *)
Inductive Returned :=
| Return (v : Z)
| NoReturn.

(** Readings the ADC delivers. *)
Definition adc_reading (v : Z) : Prop := 0 <= v < 2 ^ ADC_BITS_.

Section WithIntMax.

(** [INT_MAX] of [<limits.h>] is fixed by the target, not by this
    repository; the C standard promises at least 32767. *)
Variable INT_MAX : Z.

Definition NO_CHANGE : Z := INT_MAX.

Record Potentiometer := mkPot {
  current_bin_ : Z;
  pin_ : Z
}.

(** The constructor: [current_bin_] starts at its default [NO_CHANGE]. *)
Definition Potentiometer_new (pin : Z) : Potentiometer :=
  {| current_bin_ := NO_CHANGE; pin_ := u8 pin |}.

Definition set_current_bin (pot : Potentiometer) (bin : Z) : Potentiometer :=
  {| current_bin_ := bin; pin_ := pin_ pot |}.

(** [update] (lines 207-240); [next_value] is what [analogRead(pin_)]
    returned. *)
Definition update (pot : Potentiometer) (next_value : Z)
    : Potentiometer * Returned :=
  let next_bin := Z.shiftr next_value ADC_TO_BIN_SHIFT_ in
  if current_bin_ pot =? NO_CHANGE then
    let pot := set_current_bin pot next_bin in
    (pot, Return (current_bin_ pot))
  else if negb (next_bin =? current_bin_ pot) then
    let bin_start := Z.shiftl (current_bin_ pot) ADC_TO_BIN_SHIFT_ in
    let bin_end := bin_start + (BIN_SIZE_ - 1) in
    if next_value <? bin_start - HYSTERESIS_ then
      (set_current_bin pot next_bin, Return next_bin)
    else if next_value >? bin_end + HYSTERESIS_ then
      (set_current_bin pot next_bin, Return next_bin)
    else
      (pot, NoReturn)
  else
    (pot, Return NO_CHANGE).

(** A sequence of calls, one per reading; the object after the last
    call and what each call handed back. *)
Fixpoint updates (pot : Potentiometer) (readings : list Z)
    : Potentiometer * list Returned :=
  match readings with
  | [] => (pot, [])
  | v :: rest =>
      let '(pot1, r) := update pot v in
      let '(pot2, rs) := updates pot1 rest in
      (pot2, r :: rs)
  end.

End WithIntMax.

End Pot.

(** ** Floating point

    [log] and [pow] of the C library and the arithmetic on [double] are
    taken over the real numbers; the conversion of a floating value to an
    integer type truncates towards zero.  No statement below depends on
    how a floating result is rounded. *)

Definition Rtrunc (r : R) : Z :=
  if Rle_dec 0 r then Int_part r else - Int_part (- r).

(** ** LedProgram.h

    The [int] and [unsigned] arithmetic of the programs is taken in [Z]:
    for the brightness and frequency values [loop()] passes, readings of
    the 10-bit ADC, no intermediate value leaves the range of a 16-bit
    [int].  Conversions to [byte] and [uint8_t] are written out. *)

Module Led.

(** gamma correction table *)
Definition gc_table : list Z := [
0; 1; 1; 1; 1; 1; 1; 1; 1; 1; 1; 1; 1; 1; 1; 1; 1; 1; 1; 1; 1; 1; 1; 1; 1; 1; 1; 1; 1; 1; 1; 1; 1; 1; 1; 1; 1; 1; 1; 1; 1; 1; 1; 1; 1; 1; 1; 1; 1; 1; 1; 2; 2; 2; 2; 2; 2; 2; 3; 3; 3; 3; 3; 3; 4; 4; 4; 4; 4; 5; 5; 5; 5; 5; 6; 6; 6; 7; 7; 7; 7; 8; 8; 8; 9; 9; 9; 10; 10; 10; 11; 11; 11; 12; 12; 13; 13; 14; 14; 14; 15; 15; 16; 16; 17; 17; 18; 18; 19; 19; 20; 21; 21; 22; 22; 23; 24; 24; 25; 25; 26; 27; 27; 28; 29; 30; 30; 31; 32; 33; 33; 34; 35; 36; 37; 37; 38; 39; 40; 41; 42; 43; 44; 44; 45; 46; 47; 48; 49; 50; 51; 52; 54; 55; 56; 57; 58; 59; 60; 61; 62; 64; 65; 66; 67; 69; 70; 71; 72; 74; 75; 76; 78; 79; 81; 82; 83; 85; 86; 88; 89; 91; 92; 94; 95; 97; 98; 100; 102; 103; 105; 107; 108; 110; 112; 114; 115; 117; 119; 121; 123; 124; 126; 128; 130; 132; 134; 136; 138; 140; 142; 144; 146; 148; 150; 152; 154; 157; 159; 161; 163; 165; 168; 170; 172; 175; 177; 179; 182; 184; 187; 189; 192; 194; 197; 199; 202; 204; 207; 209; 212; 215; 217; 220; 223; 226; 228; 231; 234; 237; 240; 243; 246; 249; 252; 255
].

(** *** The strip object

    [Adafruit_DotStar] belongs to an external library; the model keeps
    the state its calls act on: the pixel buffer (one packed colour per
    pixel), the brightness register and the pins the next [show] clocks
    the buffer out on. *)
Inductive StripPins :=
| HwSpi
| SoftSpi (data clk : Z).

Record Adafruit_DotStar := mkStrip {
  pixels : list Z;
  brightness_ : Z;
  pins : StripPins
}.

Definition numPixels (strip : Adafruit_DotStar) : nat := length (pixels strip).

(** [Color(r, g, b)]: three bytes packed into one word. *)
Definition Color (r g b : Z) : Z :=
  Z.lor (Z.shiftl (u8 r) 16) (Z.lor (Z.shiftl (u8 g) 8) (u8 b)).

(** [setPixelColor(n, c)]: pixels past the end are ignored. *)
Definition setPixelColor (strip : Adafruit_DotStar) (n : nat) (c : Z)
    : Adafruit_DotStar :=
  {| pixels := <[n := c]> (pixels strip);
     brightness_ := brightness_ strip;
     pins := pins strip |}.

Definition setBrightness (strip : Adafruit_DotStar) (b : Z) : Adafruit_DotStar :=
  {| pixels := pixels strip; brightness_ := u8 b; pins := pins strip |}.

(** [updatePins()] and [updatePins(data, clock)]. *)
Definition updatePins (strip : Adafruit_DotStar) (p : StripPins)
    : Adafruit_DotStar :=
  {| pixels := pixels strip; brightness_ := brightness_ strip; pins := p |}.

(** A counted loop [for (size_t i = first; i < first + n; ++i) body]. *)
Fixpoint for_range {S : Type} (first n : nat) (body : nat -> S -> S) (s : S) : S :=
  match n with
  | O => s
  | Datatypes.S n' => for_range (Datatypes.S first) n' body (body first s)
  end.

(** The loop closing every [updateStrip]:
    [for (size_t i = 0; i < strip.numPixels(); ++i)
       strip.setPixelColor(i, color);] *)
Definition fill (strip : Adafruit_DotStar) (color : Z) : Adafruit_DotStar :=
  for_range 0 (numPixels strip) (fun i s => setPixelColor s i color) strip.

Definition maxBrightness : Z := Z.shiftl 1 10.
Definition maxFrequency : Z := Z.shiftl 1 10.

(** *** The programs

    One constructor per class deriving [LedProgram], carrying the data
    members of the class. *)
Inductive LedProgram :=
| BlinkerProg (on : bool)
| RgbBlinkerProg (on : bool) (rgb : Z)
| SingleColorProg
| ColorTempProg.

(** [BlinkerProg::updateStrip] (lines 59-75). *)
Definition BlinkerProg_updateStrip (on : bool) (strip : Adafruit_DotStar)
    (strip_nr brightness frequency : Z) : LedProgram * Adafruit_DotStar :=
  if negb (strip_nr =? 0) then (BlinkerProg on, strip)
  else
    let on := negb on in
    let color := if on then Color 255 255 255 else Color 0 0 0 in
    (BlinkerProg on, fill strip color).

(** [RgbBlinkerProg::updateStrip] (lines 84-118). *)
Definition RgbBlinkerProg_updateStrip (on : bool) (rgb : Z)
    (strip : Adafruit_DotStar) (strip_nr brightness frequency : Z)
    : LedProgram * Adafruit_DotStar :=
  if negb (strip_nr =? 0) then (RgbBlinkerProg on rgb, strip)
  else
    let on := negb on in
    let rgb := if on then (if rgb =? 2 then 0 else rgb + 1) else rgb in
    let color :=
      if rgb =? 0 then Color 255 0 0
      else if rgb =? 1 then Color 0 255 0
      else Color 0 0 255 in
    let color := if on then color else Color 0 0 0 in
    (RgbBlinkerProg on rgb, fill strip color).

(** [SingleColorProg::wheel] (lines 126-138); [pos] is a [byte]. *)
Definition wheel (pos : Z) : Z :=
  let pos := u8 (255 - pos) in
  if pos <? 85 then Color (255 - pos * 3) 0 (pos * 3)
  else if pos <? 170 then
    let pos := u8 (pos - 85) in
    Color 0 (pos * 3) (255 - pos * 3)
  else
    let pos := u8 (pos - 170) in
    Color (pos * 3) (255 - pos * 3) 0.

(** [SingleColorProg::updateStrip] (lines 141-154). *)
Definition SingleColorProg_updateStrip (strip : Adafruit_DotStar)
    (strip_nr brightness frequency : Z) : LedProgram * Adafruit_DotStar :=
  if negb (strip_nr =? 0) then (SingleColorProg, strip)
  else
    let color := wheel (u8 (frequency / (maxFrequency / 255))) in
    (SingleColorProg, fill strip color).

(** [ColorTempProg::clamp] (lines 160-167), returning a [uint8_t]. *)
Definition clamp (x min max : Z) : Z :=
  if x <? min then u8 min
  else if x >? max then u8 max
  else u8 x.

(** [gc_table[i]]. *)
Definition gc (i : Z) : Z := nth (Z.to_nat i) gc_table 0.

(** [ColorTempProg::color_temp_to_rgb] (lines 170-200). *)
Definition color_temp_to_rgb (temp : Z) : Z :=
  if (temp >? 40000) || (temp <? 1000) then Color 0 255 0
  else
    let temp := temp / 100 in
    let '(red, green, blue) :=
      if temp <=? 66 then
        let red := 255 in
        let green :=
          Rtrunc (99.4708025861 * ln (IZR temp) - 161.1195681661)%R in
        let blue :=
          if temp <=? 19 then 0
          else Rtrunc (138.5177312231 * ln (IZR (temp - 10)) - 305.0447927307)%R in
        (red, green, blue)
      else
        let red :=
          Rtrunc (329.698727446 * Rpower (IZR (temp - 60)) (-0.1332047592))%R in
        let green :=
          Rtrunc (288.1221695283 * Rpower (IZR (temp - 60)) (-0.0755148492))%R in
        let blue := 255 in
        (red, green, blue) in
    let red := gc (clamp red 0 255) in
    let green := gc (clamp green 0 255) in
    let blue := gc (clamp blue 0 255) in
    Color red green blue.

(** [ColorTempProg::updateStrip] (lines 202-217). *)
Definition ColorTempProg_updateStrip (strip : Adafruit_DotStar)
    (strip_nr brightness frequency : Z) : LedProgram * Adafruit_DotStar :=
  if negb (strip_nr =? 0) then (ColorTempProg, strip)
  else
    let color := color_temp_to_rgb (8 * frequency + 1000) in
    (ColorTempProg, fill strip color).

(** The virtual call [prog->updateStrip(strip, strip_nr, brightness,
    frequency)]: the program and the strip after the call. *)
Definition updateStrip (prog : LedProgram) (strip : Adafruit_DotStar)
    (strip_nr brightness frequency : Z) : LedProgram * Adafruit_DotStar :=
  match prog with
  | BlinkerProg on => BlinkerProg_updateStrip on strip strip_nr brightness frequency
  | RgbBlinkerProg on rgb =>
      RgbBlinkerProg_updateStrip on rgb strip strip_nr brightness frequency
  | SingleColorProg => SingleColorProg_updateStrip strip strip_nr brightness frequency
  | ColorTempProg => ColorTempProg_updateStrip strip strip_nr brightness frequency
  end.

End Led.

(** ** led_monger.ino *)

Module Monger.

Import Led.

Definition nr_strips : nat := 8.
Definition leds_per_strip : nat := 144.

Definition led_clk_pins : list Z := [52; 50; 48; 46; 44; 42; 40; 38].
Definition led_data_pins : list Z := [53; 51; 49; 47; 45; 43; 41; 39].

(** The one global [strip] (lines 76-77): [leds_per_strip] dark pixels
    on the pins of strip 0. *)
Definition strip_start : Adafruit_DotStar :=
  {| pixels := repeat 0 leds_per_strip;
     brightness_ := 0;
     pins := SoftSpi (nth 0 led_data_pins 0) (nth 0 led_clk_pins 0) |}.

(** The global program objects and the table [progs] (lines 95-105). *)
Definition progs_start : list LedProgram :=
  [BlinkerProg false; RgbBlinkerProg false 0; SingleColorProg; ColorTempProg].

Definition nr_progs : Z := u8 (Z.of_nat (length progs_start)).

(** *** Pacing (lines 123-127 and 168-178) *)

(** The divisor of line 127: [(freq != 0 ? log(freq) : 1)]. *)
Definition interval_divisor (freq : Z) : R :=
  if negb (freq =? 0) then ln (IZR freq) else 1%R.

(** A floating division; [None] when the divisor is zero. *)
Definition fdiv (x y : R) : option R :=
  if Req_dec_T y 0 then None else Some (x / y)%R.

Definition ULONG_MAX : Z := 2 ^ 32 - 1.

(** Conversion of a floating value to [unsigned long]: defined when the
    truncated value fits. *)
Definition to_ulong (q : R) : option Z :=
  let z := Rtrunc q in
  if (0 <=? z) && (z <=? ULONG_MAX) then Some z else None.

(** [interval_millis] of line 127. *)
Definition interval_millis (freq : Z) : option Z :=
  match fdiv 1000 (interval_divisor freq) with
  | None => None
  | Some q => to_ulong q
  end.

(** Lines 173-178: the argument of [delay], if it is called. *)
Definition sleep_time (loop_time interval : Z) : option Z :=
  if loop_time <? interval then Some (interval - loop_time) else None.

(** *** Rendering (lines 141-162) *)

(** What the loop does to the outside, in the order it does it. *)
Inductive Event :=
| EvUpdatePins (p : StripPins)
| EvUpdateStrip (strip_nr : Z)
| EvSetBrightness (b : Z)
| EvShow (p : StripPins) (b : Z) (data : list Z).

(** The objects the [for] loop works on: the program [prog] points to,
    the global [strip], and the events so far. *)
Record Tick := mkTick {
  prog : LedProgram;
  strip : Adafruit_DotStar;
  events : list Event
}.

(** The pins strip [i] is driven on (lines 145-148). *)
Definition strip_pins (i : nat) : StripPins :=
  if (i =? 0)%nat then HwSpi
  else SoftSpi (nth i led_data_pins 0) (nth i led_clk_pins 0).

(** The body of the [for] loop for strip [i] (lines 145-157). *)
Definition loop_body (brightness freq : Z) (i : nat) (t : Tick) : Tick :=
  let s := updatePins (strip t) (strip_pins i) in
  let ev := events t ++ [EvUpdatePins (strip_pins i)] in
  let strip_nr := u8 (Z.of_nat i) in
  let r := updateStrip (prog t) s strip_nr brightness freq in
  let ev := ev ++ [EvUpdateStrip strip_nr] in
  let s := setBrightness (snd r) (brightness / (maxBrightness / 255)) in
  let ev := ev ++ [EvSetBrightness (brightness_ s)] in
  let ev := ev ++ [EvShow (pins s) (brightness_ s) (pixels s)] in
  {| prog := fst r; strip := s; events := ev |}.

(** [for (size_t i = 0; i < nr_strips; ++i) ...] (lines 143-162). *)
Definition loop_render (brightness freq : Z) (t : Tick) : Tick :=
  for_range 0 nr_strips (loop_body brightness freq) t.

(** *** One pass of [loop()] *)

(** The globals of the sketch.  The encoder is read with the accessor
    the header declares, [getIndex]. *)
Record Sketch := mkSketch {
  the_strip : Adafruit_DotStar;
  progs : list LedProgram;
  which_prog : Z;
  rot : Rotary.RotaryEncoder;
  shown : list Event
}.

Definition Sketch_start (a b : Rotary.PinLevel) : Sketch :=
  {| the_strip := strip_start;
     progs := progs_start;
     which_prog := 0;
     rot := Rotary.RotaryEncoder_new 18 19 nr_progs [] a b;
     shown := [] |}.

(** [loop()] up to the pacing, with [freq] and [brightness] the two
    values [analogRead] returned; [None] when [progs[which_prog]] is
    read out of bounds. *)
Definition loop (freq brightness : Z) (s : Sketch) : option Sketch :=
  let which := Rotary.getIndex (rot s) in
  match progs s !! Z.to_nat which with
  | None => None
  | Some p =>
      let t := loop_render brightness freq
                 {| prog := p; strip := the_strip s; events := shown s |} in
      Some {| the_strip := strip t;
              progs := <[Z.to_nat which := prog t]> (progs s);
              which_prog := which;
              rot := rot s;
              shown := events t |}
  end.

(** The handler running between two passes works on the global [rot]. *)
Definition isr_sketch (a b : Rotary.PinLevel) (s : Sketch) : Sketch :=
  {| the_strip := the_strip s;
     progs := progs s;
     which_prog := which_prog s;
     rot := Rotary.pin_isr_body (rot s) a b;
     shown := shown s |}.

(** The states of the sketch: the start, then passes of [loop()] on any
    two readings and invocations of the handler on any pin levels, in
    any order. *)
Inductive sketch_reach : Sketch -> Prop :=
| sr_start a b : sketch_reach (Sketch_start a b)
| sr_isr s a b : sketch_reach s -> sketch_reach (isr_sketch a b s)
| sr_loop s s' freq brightness :
    sketch_reach s -> loop freq brightness s = Some s' -> sketch_reach s'.

(** The pixel data of the [show] calls of a trace, in order. *)
Definition frames (ev : list Event) : list (list Z) :=
  flat_map (fun e => match e with EvShow _ _ data => [data] | _ => [] end) ev.

(** The strip numbers the active program was called with, in order. *)
Definition calls (ev : list Event) : list Z :=
  flat_map (fun e => match e with EvUpdateStrip n => [n] | _ => [] end) ev.

(** The events of one channel [i] of a tick, when the brightness
    register holds [b] and the buffer holds [data]. *)
Definition strip_events (b : Z) (data : list Z) (i : nat) : list Event :=
  [EvUpdatePins (strip_pins i); EvUpdateStrip (Z.of_nat i);
   EvSetBrightness b; EvShow (strip_pins i) b data].

(** *** Rendering without the shared buffer

    The reading of the specification: every channel has a buffer of its
    own, [n] dark pixels to begin with, and the program renders into it
    from scratch, that is, does for the channel the computation it does
    for strip 0; the channels are rendered one after the other, the
    program keeping its data members from one to the next.  The result
    is the pixel data sent, channel by channel. *)
Definition own_buffer (n i : nat) : Adafruit_DotStar :=
  {| pixels := repeat 0 n; brightness_ := 0; pins := strip_pins i |}.

Fixpoint independent_frames (p : LedProgram) (n : nat) (brightness freq : Z)
    (channels : list nat) : list (list Z) :=
  match channels with
  | [] => []
  | i :: rest =>
      let r := updateStrip p (own_buffer n i) 0 brightness freq in
      pixels (snd r) :: independent_frames (fst r) n brightness freq rest
  end.

(** A program is order-independent when rendering changes nothing in
    the program itself: what it draws does not depend on how many times
    or for which strips it was asked before. *)
Definition order_independent (p : LedProgram) : Prop :=
  forall s brightness freq, fst (updateStrip p s 0 brightness freq) = p.

End Monger.

(** * Properties *)

(** ** Machine integers *)

Lemma u8_range z : 0 <= u8 z < 256.
Proof. unfold u8. apply Z.mod_pos_bound. lia. Qed.

Lemma u8_small z : 0 <= z < 256 -> u8 z = z.
Proof. intros H. unfold u8. now apply Z.mod_small. Qed.

Lemma u8_idem z : u8 (u8 z) = u8 z.
Proof. apply u8_small, u8_range. Qed.

Lemma u8_succ z : u8 (u8 z + 1) = u8 (z + 1).
Proof. unfold u8. now rewrite Zplus_mod_idemp_l. Qed.

Lemma u8_pred z : u8 (u8 z - 1) = u8 (z - 1).
Proof. unfold u8. now rewrite Zminus_mod_idemp_l. Qed.

(** ** The quadrature decoder *)

Section Decoder.

Import Rotary.

(** The handler reads back the position the pins were put in. *)
Lemma read_pos_pins p :
  0 <= p <= 3 -> read_pos (fst (pins_of_pos p)) (snd (pins_of_pos p)) = p.
Proof.
  intros H.
  assert (p = 0 \/ p = 1 \/ p = 2 \/ p = 3) as [-> | [-> | [-> | ->]]] by lia;
    reflexivity.
Qed.

Lemma read_pos_cases a b :
  read_pos a b = 0 \/ read_pos a b = 1 \/ read_pos a b = 2 \/ read_pos a b = 3.
Proof. destruct a, b; vm_compute; tauto. Qed.

(** The fields the handler never writes. *)
Lemma pin_isr_body_max enc a b :
  max_index_ (pin_isr_body enc a b) = max_index_ enc.
Proof.
  unfold pin_isr_body.
  destruct (negb _); [ destruct (_ =? 3); [ | destruct (_ =? 0) ] | ];
    try destruct (decide_step _ _); reflexivity.
Qed.

Lemma pin_isr_body_prev enc a b :
  enc_prev_pos_ (pin_isr_body enc a b) = read_pos a b.
Proof.
  unfold pin_isr_body.
  destruct (negb _); [ destruct (_ =? 3); [ | destruct (_ =? 0) ] | ];
    try destruct (decide_step _ _); reflexivity.
Qed.

(** What one invocation does to the counter: nothing, unless position 0
    is reached from another position, and then what [decide_step] says. *)
Lemma pin_isr_body_index enc a b :
  rotary_index_ (pin_isr_body enc a b) =
    if negb (read_pos a b =? enc_prev_pos_ enc) && (read_pos a b =? 0)
    then fst (decide_step (flags_at_check enc) (rotary_index_ enc))
    else rotary_index_ enc.
Proof.
  unfold pin_isr_body, flags_at_check.
  destruct (read_pos_cases a b) as [E | [E | [E | E]]]; rewrite E;
    destruct (negb _); cbn [andb Z.eqb]; try reflexivity.
  destruct (decide_step _ _); reflexivity.
Qed.

Lemma pin_isr_body_flags_idle enc a b :
  read_pos a b = 0 ->
  enc_flags_ (pin_isr_body enc a b) =
    if enc_prev_pos_ enc =? 0 then enc_flags_ enc else 0.
Proof.
  intros E. unfold pin_isr_body. rewrite E.
  rewrite (Z.eqb_sym 0).
  destruct (enc_prev_pos_ enc =? 0); cbn [negb Z.eqb]; [ reflexivity | ].
  destruct (decide_step _ _); reflexivity.
Qed.

Lemma decide_step_cases flags index :
  fst (decide_step flags index) = index \/
  fst (decide_step flags index) = u8 (index + 1) \/
  fst (decide_step flags index) = u8 (index - 1).
Proof.
  unfold decide_step.
  destruct (_ && _); [ cbn; tauto | ].
  destruct (_ && _); cbn; tauto.
Qed.

(** Every invocation leaves the counter, or moves it by one. *)
Lemma pin_isr_body_step enc a b :
  rotary_index_ (pin_isr_body enc a b) = rotary_index_ enc \/
  rotary_index_ (pin_isr_body enc a b) = u8 (rotary_index_ enc + 1) \/
  rotary_index_ (pin_isr_body enc a b) = u8 (rotary_index_ enc - 1).
Proof.
  rewrite pin_isr_body_index.
  destruct (_ && _); [ apply decide_step_cases | tauto ].
Qed.

Lemma wf_new pin_a pin_b max_index seg a b :
  wf (RotaryEncoder_new pin_a pin_b max_index seg a b).
Proof.
  unfold wf; cbn.
  destruct (read_pos_cases a b) as [E | [E | [E | E]]]; rewrite E; lia.
Qed.

Lemma wf_isr enc a b : wf enc -> wf (pin_isr_body enc a b).
Proof.
  intros (Hp & Hi & Hf). unfold wf.
  rewrite pin_isr_body_prev. split; [ | split ].
  - destruct (read_pos_cases a b) as [E | [E | [E | E]]]; rewrite E; lia.
  - destruct (pin_isr_body_step enc a b) as [E | [E | E]]; rewrite E;
      try apply u8_range; lia.
  - intros E. rewrite (pin_isr_body_flags_idle _ _ _ E).
    destruct (Z.eqb_spec (enc_prev_pos_ enc) 0); auto.
Qed.

Lemma reachable_wf enc : reachable enc -> wf enc.
Proof.
  induction 1 as [ | enc a b _ IH ]; [ apply wf_new | now apply wf_isr ].
Qed.

Lemma reachable_run enc ps : reachable enc -> reachable (run enc ps).
Proof.
  revert enc. induction ps as [ | p ps IH ]; intros enc H; [ exact H | ].
  apply IH. now constructor.
Qed.

Lemma run_app enc ps qs : run enc (ps ++ qs) = run (run enc ps) qs.
Proof. unfold run. apply fold_left_app. Qed.

(** A clean turn from rest: the counter moves once, at the last edge,
    and the decoder is at rest again. *)
Lemma cw_turn_idle seg pa pb idx mx :
  run (mkEnc seg pa pb 0 0 idx mx) cw_turn =
    mkEnc (u8 (idx + 1) mod mx :: seg) pa pb 0 0 (u8 (idx + 1)) mx /\
  rotary_index_ (run (mkEnc seg pa pb 0 0 idx mx) [1; 3; 2]) = idx.
Proof. split; reflexivity. Qed.

Lemma ccw_turn_idle seg pa pb idx mx :
  run (mkEnc seg pa pb 0 0 idx mx) ccw_turn =
    mkEnc (u8 (idx - 1) mod mx :: seg) pa pb 0 0 (u8 (idx - 1)) mx /\
  rotary_index_ (run (mkEnc seg pa pb 0 0 idx mx) [2; 3; 1]) = idx.
Proof. split; reflexivity. Qed.

Lemma idle_shape enc :
  enc_prev_pos_ enc = 0 -> enc_flags_ enc = 0 ->
  enc = mkEnc (seven_seg_ enc) (pin_a_ enc) (pin_b_ enc) 0 0
              (rotary_index_ enc) (max_index_ enc).
Proof. destruct enc; cbn; intros -> ->; reflexivity. Qed.

(** C1. Fed to the handler of a decoder resting at 00, the clean
    quarter turn 00, 01, 11, 10, 00 moves the position counter by
    exactly +1 and the opposite turn 00, 10, 11, 01, 00 by exactly -1,
    in the 8-bit arithmetic of the counter (without wrap-around these
    are the integers +1 and -1); the counter stands still until the
    last edge; and no invocation of the handler, in any state and on
    any pin levels, moves the counter by more than one. *)
Theorem quarter_turn_counts_one enc :
  reachable enc -> enc_prev_pos_ enc = 0 ->
  (rotary_index_ (run enc cw_turn) = u8 (rotary_index_ enc + 1) /\
   rotary_index_ (run enc [1; 3; 2]) = rotary_index_ enc /\
   (rotary_index_ enc < 255 ->
    rotary_index_ (run enc cw_turn) = rotary_index_ enc + 1)) /\
  (rotary_index_ (run enc ccw_turn) = u8 (rotary_index_ enc - 1) /\
   rotary_index_ (run enc [2; 3; 1]) = rotary_index_ enc /\
   (0 < rotary_index_ enc ->
    rotary_index_ (run enc ccw_turn) = rotary_index_ enc - 1)) /\
  (forall e a b,
     rotary_index_ (pin_isr_body e a b) = rotary_index_ e \/
     rotary_index_ (pin_isr_body e a b) = u8 (rotary_index_ e + 1) \/
     rotary_index_ (pin_isr_body e a b) = u8 (rotary_index_ e - 1)).
Proof.
  intros Hr Hp.
  destruct (reachable_wf _ Hr) as (_ & Hi & Hf).
  rewrite (idle_shape enc Hp (Hf Hp)).
  cbn [rotary_index_].
  destruct (cw_turn_idle (seven_seg_ enc) (pin_a_ enc) (pin_b_ enc)
              (rotary_index_ enc) (max_index_ enc)) as [-> ->].
  destruct (ccw_turn_idle (seven_seg_ enc) (pin_a_ enc) (pin_b_ enc)
              (rotary_index_ enc) (max_index_ enc)) as [-> ->].
  cbn [rotary_index_].
  repeat split.
  - intros Hlt. apply u8_small. lia.
  - intros Hgt. apply u8_small. lia.
  - apply pin_isr_body_step.
Qed.

Lemma quarter_turn_counts_one_witness :
  let enc := RotaryEncoder_new 18 19 4 [] HIGH HIGH in
  rotary_index_ (run enc cw_turn) = 1 /\
  rotary_index_ (run enc ccw_turn) = 255.
Proof.
  intros enc.
  assert (Hr : reachable enc) by constructor.
  assert (Hp : enc_prev_pos_ enc = 0) by reflexivity.
  destruct (quarter_turn_counts_one enc Hr Hp) as ((Hcw & _) & (Hccw & _) & _).
  split; [ exact Hcw | exact Hccw ].
Defined.

Lemma last_cons {A} (x : A) l d : List.last (x :: l) d = List.last l x.
Proof.
  revert x d. induction l as [ | y l IH ]; intros x d; [ reflexivity | ].
  change (List.last (x :: y :: l) d) with (List.last (y :: l) d).
  now rewrite (IH y d), (IH y x).
Qed.

Lemma Forall_last {A} (P : A -> Prop) l d :
  Forall P l -> P d -> P (List.last l d).
Proof.
  intros H. revert d. induction H as [ | x l Hx _ IH ]; intros d Hd; [ exact Hd | ].
  rewrite last_cons. now apply IH.
Qed.

(** Between leaving 00 and coming back, positions 01 and 10 change
    neither the flags nor the counter. *)
Lemma run_half_steps enc mid :
  enc_prev_pos_ enc = 1 \/ enc_prev_pos_ enc = 2 ->
  Forall (fun p => p = 1 \/ p = 2) mid ->
  enc_flags_ (run enc mid) = enc_flags_ enc /\
  rotary_index_ (run enc mid) = rotary_index_ enc /\
  enc_prev_pos_ (run enc mid) = List.last mid (enc_prev_pos_ enc).
Proof.
  revert enc. induction mid as [ | p mid IH ]; intros enc Hp Hall.
  - cbn. auto.
  - inversion Hall as [ | ? ? Hp1 Hall' ]; subst.
    assert (Hstep : enc_flags_ (isr_at enc p) = enc_flags_ enc /\
                    rotary_index_ (isr_at enc p) = rotary_index_ enc /\
                    enc_prev_pos_ (isr_at enc p) = p).
    { destruct enc as [seg pa pb prev fl idx mx]; cbn in Hp.
      destruct Hp as [-> | ->], Hp1 as [-> | ->]; repeat split; reflexivity. }
    destruct Hstep as (Hf & Hi & Hq).
    change (run enc (p :: mid)) with (run (isr_at enc p) mid).
    destruct (IH (isr_at enc p)) as (Hf' & Hi' & Hq'); [ rewrite Hq; auto | auto | ].
    rewrite Hf', Hi', Hq', Hf, Hi, Hq, last_cons.
    repeat split.
Qed.

(** The flags at the moment of the check, for an excursion 00, mid, 00
    that stays on 01 and 10: the first-edge flag of the first position
    and the closing-edge flag of the last one, and nothing else. *)
Lemma flags_at_check_excursion enc p mid :
  enc_prev_pos_ enc = 0 -> enc_flags_ enc = 0 ->
  Forall (fun p => p = 1 \/ p = 2) (p :: mid) ->
  flags_at_check (run enc (p :: mid)) =
    Z.lor (if p =? 1 then 1 else 2) (if List.last mid p =? 2 then 4 else 8).
Proof.
  intros Hp Hf Hall.
  inversion Hall as [ | ? ? Hp1 Hall' ]; subst.
  change (run enc (p :: mid)) with (run (isr_at enc p) mid).
  assert (Hstep : enc_flags_ (isr_at enc p) = (if p =? 1 then 1 else 2) /\
                  enc_prev_pos_ (isr_at enc p) = p).
  { rewrite (idle_shape enc Hp Hf). destruct Hp1 as [-> | ->]; split; reflexivity. }
  destruct Hstep as (Hf1 & Hq1).
  destruct (run_half_steps (isr_at enc p) mid) as (Hf2 & _ & Hq2);
    [ rewrite Hq1; auto | auto | ].
  unfold flags_at_check. rewrite Hf2, Hq2, Hf1, Hq1.
  assert (Hl : List.last mid p = 1 \/ List.last mid p = 2).
  { now apply (Forall_last (fun p => p = 1 \/ p = 2)). }
  destruct Hp1 as [-> | ->], Hl as [-> | ->]; reflexivity.
Qed.

(** C2. An excursion of the pins that leaves 00 and comes back to 00
    over positions 01 and 10 only (11 is never reached), and at whose
    end the flags hold neither the clockwise pair (first edge bit 0 with
    closing edge bit 2) nor the counter-clockwise pair (bit 1 with bit
    3), leaves the position counter as it was; and whenever the handler
    sees the pins come back to 00, the flags are zero afterwards,
    whether or not a step was counted. *)
Theorem bounce_rejected enc (mid : list Z) :
  reachable enc -> enc_prev_pos_ enc = 0 ->
  Forall (fun p => p = 1 \/ p = 2) mid ->
  let f := flags_at_check (run enc mid) in
  ~ (bit_is_set f 0 = true /\ bit_is_set f 2 = true) ->
  ~ (bit_is_set f 1 = true /\ bit_is_set f 3 = true) ->
  rotary_index_ (run enc (mid ++ [0])) = rotary_index_ enc /\
  enc_flags_ (run enc (mid ++ [0])) = 0 /\
  (forall e a b,
     read_pos a b = 0 -> enc_prev_pos_ e <> 0 ->
     enc_flags_ (pin_isr_body e a b) = 0) /\
  (forall e a b,
     reachable e -> read_pos a b = 0 ->
     enc_flags_ (pin_isr_body e a b) = 0).
Proof.
  intros Hr Hp Hall f Hcw Hccw.
  destruct (reachable_wf _ Hr) as (_ & _ & Hf). specialize (Hf Hp).
  assert (Hclear : forall e a b,
            read_pos a b = 0 -> enc_prev_pos_ e <> 0 ->
            enc_flags_ (pin_isr_body e a b) = 0).
  { intros e a b E Hne. rewrite (pin_isr_body_flags_idle _ _ _ E).
    destruct (Z.eqb_spec (enc_prev_pos_ e) 0); [ contradiction | reflexivity ]. }
  assert (Hclear' : forall e a b,
            reachable e -> read_pos a b = 0 ->
            enc_flags_ (pin_isr_body e a b) = 0).
  { intros e a b He E.
    destruct (reachable_wf _ (reach_isr e a b He)) as (_ & _ & Hz).
    apply Hz. now rewrite pin_isr_body_prev. }
  assert (Hmain : rotary_index_ (run enc (mid ++ [0])) = rotary_index_ enc /\
                  enc_flags_ (run enc (mid ++ [0])) = 0);
    [ | tauto ].
  destruct mid as [ | p mid ].
  - rewrite (idle_shape enc Hp Hf). split; reflexivity.
  - subst f. rewrite (flags_at_check_excursion enc p mid Hp Hf Hall) in Hcw, Hccw.
    inversion Hall as [ | ? ? Hp1 Hall' ]; subst.
    rewrite run_app.
    change (run enc (p :: mid)) with (run (isr_at enc p) mid) in *.
    assert (Hstep : enc_flags_ (isr_at enc p) = (if p =? 1 then 1 else 2) /\
                    rotary_index_ (isr_at enc p) = rotary_index_ enc /\
                    enc_prev_pos_ (isr_at enc p) = p).
    { rewrite (idle_shape enc Hp Hf).
      destruct Hp1 as [-> | ->]; repeat split; reflexivity. }
    destruct Hstep as (Hf1 & Hi1 & Hq1).
    destruct (run_half_steps (isr_at enc p) mid) as (Hf2 & Hi2 & Hq2);
      [ rewrite Hq1; auto | auto | ].
    rewrite Hq1 in Hq2. rewrite Hf1 in Hf2. rewrite Hi1 in Hi2.
    set (e := run (isr_at enc p) mid) in *.
    assert (Hl : List.last mid p = 1 \/ List.last mid p = 2).
    { now apply (Forall_last (fun p => p = 1 \/ p = 2)). }
    destruct e as [seg pa pb prev fl idx mx]; cbn in Hf2, Hi2, Hq2; subst.
    destruct Hp1 as [-> | ->], Hl as [El | El]; rewrite El in *;
      cbn in Hcw, Hccw; try (exfalso; tauto); split; reflexivity.
Qed.

Lemma bounce_rejected_witness :
  let enc := RotaryEncoder_new 18 19 4 [] HIGH HIGH in
  rotary_index_ (run enc ([1; 2; 1] ++ [0])) = 0 /\
  enc_flags_ (run enc ([1; 2; 1] ++ [0])) = 0.
Proof.
  intros enc.
  assert (Hr : reachable enc) by constructor.
  assert (Hp : enc_prev_pos_ enc = 0) by reflexivity.
  assert (Hall : Forall (fun p => p = 1 \/ p = 2) [1; 2; 1]).
  { repeat (constructor; [ lia | ]). constructor. }
  assert (Hcw : ~ (bit_is_set (flags_at_check (run enc [1; 2; 1])) 0 = true /\
                   bit_is_set (flags_at_check (run enc [1; 2; 1])) 2 = true)).
  { vm_compute. intros [_ H]; discriminate H. }
  assert (Hccw : ~ (bit_is_set (flags_at_check (run enc [1; 2; 1])) 1 = true /\
                    bit_is_set (flags_at_check (run enc [1; 2; 1])) 3 = true)).
  { vm_compute. intros [H _]; discriminate H. }
  destruct (bounce_rejected enc [1; 2; 1] Hr Hp Hall Hcw Hccw) as (Hi & Hf & _).
  split; [ exact Hi | exact Hf ].
Defined.

Lemma u8_add_l a b : u8 (u8 a + b) = u8 (a + b).
Proof. unfold u8. now rewrite Zplus_mod_idemp_l. Qed.

Lemma count_cw_cons d ds :
  count_cw (d :: ds) = (if is_cw d then 1 else 0) + count_cw ds.
Proof. unfold count_cw. cbn. destruct (is_cw d); cbn [length]; lia. Qed.

Lemma count_ccw_cons d ds :
  count_ccw (d :: ds) = (if is_cw d then 0 else 1) + count_ccw ds.
Proof. unfold count_ccw. cbn. destruct (is_cw d); cbn [negb length]; lia. Qed.

(** Turns chained from rest: the decoder is at rest again, and the
    counter has moved by the number of clockwise turns less the number
    of counter-clockwise ones, in 8 bits. *)
Lemma run_turns_idle ds : forall enc,
  enc_prev_pos_ enc = 0 -> enc_flags_ enc = 0 ->
  enc_prev_pos_ (run_turns enc ds) = 0 /\
  enc_flags_ (run_turns enc ds) = 0 /\
  max_index_ (run_turns enc ds) = max_index_ enc /\
  u8 (rotary_index_ (run_turns enc ds)) =
    u8 (rotary_index_ enc + (count_cw ds - count_ccw ds)).
Proof.
  induction ds as [ | d ds IH ]; intros enc Hp Hf.
  - cbn. rewrite Z.add_0_r. auto.
  - change (run_turns enc (d :: ds)) with (run_turns (run enc (turn d)) ds).
    rewrite count_cw_cons, count_ccw_cons.
    rewrite (idle_shape enc Hp Hf).
    set (seg := seven_seg_ enc). set (pa := pin_a_ enc). set (pb := pin_b_ enc).
    set (idx := rotary_index_ enc). set (mx := max_index_ enc).
    destruct d; cbn [turn is_cw].
    + destruct (cw_turn_idle seg pa pb idx mx) as [-> _].
      destruct (IH (mkEnc (u8 (idx + 1) mod mx :: seg) pa pb 0 0 (u8 (idx + 1)) mx))
        as (H1 & H2 & H3 & H4); [ reflexivity | reflexivity | ].
      rewrite H1, H2, H3, H4. cbn [rotary_index_ max_index_].
      repeat split. rewrite u8_add_l. f_equal. lia.
    + destruct (ccw_turn_idle seg pa pb idx mx) as [-> _].
      destruct (IH (mkEnc (u8 (idx - 1) mod mx :: seg) pa pb 0 0 (u8 (idx - 1)) mx))
        as (H1 & H2 & H3 & H4); [ reflexivity | reflexivity | ].
      rewrite H1, H2, H3, H4. cbn [rotary_index_ max_index_].
      repeat split. rewrite u8_add_l. f_equal. lia.
Qed.

Lemma run_turns_reachable ds : forall enc,
  reachable enc -> reachable (run_turns enc ds).
Proof.
  induction ds as [ | d ds IH ]; intros enc H; [ exact H | ].
  apply IH. now apply reachable_run.
Qed.

(** The counter of a decoder built with the pins at rest, after clean
    turns in any order. *)
Lemma rotary_index_after_turns pin_a pin_b max_index seg ds :
  rotary_index_
    (run_turns (RotaryEncoder_new pin_a pin_b max_index seg HIGH HIGH) ds) =
  u8 (count_cw ds - count_ccw ds).
Proof.
  set (enc := RotaryEncoder_new pin_a pin_b max_index seg HIGH HIGH).
  assert (Hr : reachable (run_turns enc ds))
    by (apply run_turns_reachable; constructor).
  destruct (reachable_wf _ Hr) as (_ & Hi & _).
  destruct (run_turns_idle ds enc) as (_ & _ & _ & H); [ reflexivity .. | ].
  rewrite (u8_small _ Hi) in H. exact H.
Qed.

(** C3, as the code has it.  After [N] clean clockwise and [M] clean
    counter-clockwise quarter turns, in any order, on a decoder built
    with the pins at rest and a modulus from 1 to 255, [getIndex]
    returns ((N - M) mod 256) mod max_index: the counter is 8 bits wide
    and wraps at 256 before the modulus is taken.  This is
    (N - M) mod max_index when max_index divides 256, and when
    0 <= N - M < 256. *)
Theorem getIndex_after_turns pin_a pin_b max_index seg ds :
  1 <= max_index <= 255 ->
  let enc :=
    run_turns (RotaryEncoder_new pin_a pin_b max_index seg HIGH HIGH) ds in
  let n := count_cw ds in
  let m := count_ccw ds in
  getIndex enc = ((n - m) mod 256) mod max_index /\
  ((max_index | 256) -> getIndex enc = (n - m) mod max_index) /\
  (0 <= n - m < 256 -> getIndex enc = (n - m) mod max_index).
Proof.
  intros Hmx enc n m.
  assert (Hmax : max_index_ enc = max_index).
  { subst enc.
    destruct (run_turns_idle ds
                (RotaryEncoder_new pin_a pin_b max_index seg HIGH HIGH))
      as (_ & _ & -> & _); [ reflexivity .. | ].
    cbn. apply u8_small. lia. }
  assert (Hget : getIndex enc = ((n - m) mod 256) mod max_index).
  { unfold getIndex. rewrite Hmax. subst enc.
    rewrite rotary_index_after_turns. fold n m. unfold u8 at 2.
    apply u8_small.
    pose proof (Z.mod_pos_bound ((n - m) mod 256) max_index). lia. }
  split; [ exact Hget | split ].
  - intros Hdiv. rewrite Hget. now apply Z.mod_mod_divide.
  - intros Hsmall. rewrite Hget. now rewrite (Z.mod_small (n - m) 256).
Qed.

Lemma getIndex_after_turns_witness :
  getIndex (run_turns (RotaryEncoder_new 18 19 4 [] HIGH HIGH) [CW; CW; CCW; CW; CW])
    = 3.
Proof.
  assert (Hmx : 1 <= 4 <= 255) by lia.
  destruct (getIndex_after_turns 18 19 4 [] [CW; CW; CCW; CW; CW] Hmx)
    as (H & _ & _).
  exact H.
Defined.

(** C3, counterexample.  With modulus 3, one counter-clockwise turn
    leaves the counter at 255 and [getIndex] returns 0, not
    (0 - 1) mod 3 = 2; and 256 clockwise turns bring the counter back
    to 0 and [getIndex] returns 0, not 256 mod 3 = 1. *)
Lemma getIndex_not_difference_mod :
  let enc := RotaryEncoder_new 18 19 3 [] HIGH HIGH in
  (getIndex (run_turns enc [CCW]) = 0 /\
   (count_cw [CCW] - count_ccw [CCW]) mod 3 = 2 /\
   getIndex (run_turns enc [CCW]) <> (count_cw [CCW] - count_ccw [CCW]) mod 3) /\
  (getIndex (run_turns enc (repeat CW 256)) = 0 /\
   (count_cw (repeat CW 256) - count_ccw (repeat CW 256)) mod 3 = 1 /\
   getIndex (run_turns enc (repeat CW 256)) <>
     (count_cw (repeat CW 256) - count_ccw (repeat CW 256)) mod 3).
Proof. vm_compute. repeat split; (reflexivity || discriminate). Qed.

End Decoder.

(** ** The potentiometer reader *)

Section Sampler.

Import Pot.

Variable INT_MAX : Z.
Hypothesis INT_MAX_min : 32767 <= INT_MAX.

Local Abbreviation update := (Pot.update INT_MAX).
Local Abbreviation updates := (Pot.updates INT_MAX).
Local Abbreviation NO_CHANGE := (Pot.NO_CHANGE INT_MAX).

(** The bin of a reading: [next_value >> ADC_TO_BIN_SHIFT_]. *)
Lemma raw_bin_range v :
  adc_reading v ->
  0 <= Z.shiftr v ADC_TO_BIN_SHIFT_ <= 2 ^ (ADC_BITS_ - LOG_BIN_SIZE_) - 1.
Proof.
  unfold adc_reading. change ADC_TO_BIN_SHIFT_ with 5.
  change (2 ^ ADC_BITS_) with 1024.
  change (2 ^ (ADC_BITS_ - LOG_BIN_SIZE_) - 1) with 31.
  intros H. rewrite Z.shiftr_div_pow2 by lia. change (2 ^ 5) with 32.
  split.
  - apply Z.div_pos; lia.
  - assert (v / 32 < 32) by (apply Z.div_lt_upper_bound; lia). lia.
Qed.

Lemma raw_bin_not_sentinel v :
  adc_reading v -> Z.shiftr v ADC_TO_BIN_SHIFT_ <> NO_CHANGE.
Proof.
  intros H. pose proof (raw_bin_range v H) as Hr.
  change (2 ^ (ADC_BITS_ - LOG_BIN_SIZE_) - 1) with 31 in Hr.
  unfold Pot.NO_CHANGE. lia.
Qed.

(** The first call takes the bin of its reading and reports it. *)
Lemma update_first pot v :
  current_bin_ pot = NO_CHANGE ->
  update pot v =
    (set_current_bin pot (Z.shiftr v ADC_TO_BIN_SHIFT_),
     Return (Z.shiftr v ADC_TO_BIN_SHIFT_)).
Proof.
  intros H. unfold Pot.update. rewrite H, Z.eqb_refl. reflexivity.
Qed.

(** A later call whose reading falls into the current bin. *)
Lemma update_same_bin pot v :
  current_bin_ pot <> NO_CHANGE ->
  Z.shiftr v ADC_TO_BIN_SHIFT_ = current_bin_ pot ->
  update pot v = (pot, Return NO_CHANGE).
Proof.
  intros Hinit Hbin. unfold Pot.update.
  destruct (Z.eqb_spec (current_bin_ pot) NO_CHANGE); [ contradiction | ].
  rewrite Hbin, Z.eqb_refl. reflexivity.
Qed.

(** A later call whose reading falls into another bin: the bin is
    taken over and reported exactly when the reading lies beyond the
    margin; within the margin the object is left as it is and the
    function ends without a [return]. *)
Lemma update_other_bin pot v :
  current_bin_ pot <> NO_CHANGE ->
  Z.shiftr v ADC_TO_BIN_SHIFT_ <> current_bin_ pot ->
  let bin_start := Z.shiftl (current_bin_ pot) ADC_TO_BIN_SHIFT_ in
  let bin_end := bin_start + (BIN_SIZE_ - 1) in
  (v < bin_start - HYSTERESIS_ \/ v > bin_end + HYSTERESIS_ ->
   update pot v =
     (set_current_bin pot (Z.shiftr v ADC_TO_BIN_SHIFT_),
      Return (Z.shiftr v ADC_TO_BIN_SHIFT_))) /\
  (bin_start - HYSTERESIS_ <= v <= bin_end + HYSTERESIS_ ->
   update pot v = (pot, NoReturn)).
Proof.
  intros Hinit Hbin bin_start bin_end. unfold Pot.update.
  destruct (Z.eqb_spec (current_bin_ pot) NO_CHANGE); [ contradiction | ].
  destruct (Z.eqb_spec (Z.shiftr v ADC_TO_BIN_SHIFT_) (current_bin_ pot));
    [ contradiction | ].
  cbn [negb]. fold bin_start. fold bin_end.
  destruct (Z.ltb_spec v (bin_start - HYSTERESIS_)).
  - split; [ reflexivity | lia ].
  - destruct (Z.gtb_spec v (bin_end + HYSTERESIS_)).
    + split; [ reflexivity | lia ].
    + split; [ lia | reflexivity ].
Qed.

(** After any call, the current bin is the one it was, or the bin of
    the reading just seen. *)
Lemma update_current_bin pot v :
  current_bin_ (fst (update pot v)) = Z.shiftr v ADC_TO_BIN_SHIFT_ \/
  (current_bin_ pot <> NO_CHANGE /\
   current_bin_ (fst (update pot v)) = current_bin_ pot).
Proof.
  unfold Pot.update.
  destruct (Z.eqb_spec (current_bin_ pot) NO_CHANGE); [ left; reflexivity | ].
  destruct (negb _); [ | right; auto ].
  destruct (_ <? _); [ left; reflexivity | ].
  destruct (_ >? _); [ left; reflexivity | right; auto ].
Qed.

Lemma updates_cons pot v rs :
  fst (updates pot (v :: rs)) = fst (updates (fst (update pot v)) rs).
Proof.
  cbn [Pot.updates]. destruct (update pot v) as [pot1 r].
  cbn [fst]. destruct (updates pot1 rs). reflexivity.
Qed.

(** Once the current bin is the bin of a reading seen, it stays so. *)
Lemma updates_keeps_a_seen_bin rs : forall pot seen,
  (exists r, In r seen /\ current_bin_ pot = Z.shiftr r ADC_TO_BIN_SHIFT_) ->
  exists r, In r (seen ++ rs) /\
    current_bin_ (fst (updates pot rs)) = Z.shiftr r ADC_TO_BIN_SHIFT_.
Proof.
  induction rs as [ | v rs IH ]; intros pot seen (r & Hin & Hr).
  - exists r. rewrite app_nil_r. auto.
  - rewrite updates_cons.
    replace (seen ++ v :: rs) with ((seen ++ [v]) ++ rs)
      by (rewrite <- app_assoc; reflexivity).
    apply IH.
    destruct (update_current_bin pot v) as [E | [_ E]].
    + exists v. split; [ apply in_or_app; right; left; reflexivity | exact E ].
    + exists r. split; [ apply in_or_app; left; exact Hin | congruence ].
Qed.

(** C10. After one or more calls of [update] with readings of the ADC,
    on a freshly built object, [current_bin_] lies between 0 and
    2^(ADC_BITS - LOG_BIN_SIZE) - 1 = 31, is the bin of one of the
    readings seen so far, and is not the sentinel [NO_CHANGE]. *)
Theorem current_bin_stays_a_bin pin (rs : list Z) :
  rs <> [] -> Forall adc_reading rs ->
  let pot := fst (updates (Potentiometer_new INT_MAX pin) rs) in
  0 <= current_bin_ pot <= 2 ^ (ADC_BITS_ - LOG_BIN_SIZE_) - 1 /\
  2 ^ (ADC_BITS_ - LOG_BIN_SIZE_) - 1 = 31 /\
  (exists r, In r rs /\ current_bin_ pot = Z.shiftr r ADC_TO_BIN_SHIFT_) /\
  current_bin_ pot <> NO_CHANGE.
Proof.
  intros Hne Hall pot.
  destruct rs as [ | v rs ]; [ contradiction | ].
  assert (Hseen : exists r, In r (v :: rs) /\
                    current_bin_ pot = Z.shiftr r ADC_TO_BIN_SHIFT_).
  { subst pot. rewrite updates_cons.
    rewrite update_first by reflexivity. cbn [fst].
    apply (updates_keeps_a_seen_bin rs _ [v]).
    exists v. split; [ left; reflexivity | reflexivity ]. }
  destruct Hseen as (r & Hin & Hr).
  assert (Hadc : adc_reading r).
  { rewrite List.Forall_forall in Hall. now apply Hall. }
  repeat split.
  - rewrite Hr. apply (raw_bin_range r Hadc).
  - rewrite Hr. apply (raw_bin_range r Hadc).
  - exists r. auto.
  - rewrite Hr. now apply raw_bin_not_sentinel.
Qed.

End Sampler.

Lemma current_bin_stays_a_bin_witness :
  Pot.current_bin_
    (fst (Pot.updates 32767 (Pot.Potentiometer_new 32767 0) [500; 515; 560; 1023]))
    <> Pot.NO_CHANGE 32767.
Proof.
  assert (Hmax : 32767 <= 32767) by lia.
  assert (Hne : [500; 515; 560; 1023] <> []) by discriminate.
  assert (Hall : Forall Pot.adc_reading [500; 515; 560; 1023]).
  { repeat (constructor;
              [ unfold Pot.adc_reading; change (2 ^ Pot.ADC_BITS_) with 1024; lia | ]).
    constructor. }
  destruct (current_bin_stays_a_bin 32767 Hmax 0 [500; 515; 560; 1023] Hne Hall)
    as (_ & _ & _ & H).
  exact H.
Defined.

(** C4, at the failing input.  A fresh reader is given the readings
    500 and then 515.  The first call takes bin 15 (code points 480 to
    511).  The second reading lies in bin 16 but within the margin
    (515 <= 511 + 8): the current bin stays 15, and the call reaches the
    end of the function without a [return], so what it reports is not
    [NO_CHANGE] but unspecified.  The same happens at the end of the
    sequence 500, 560, 540. *)
Theorem update_within_margin_returns_nothing :
  Pot.updates 32767 (Pot.Potentiometer_new 32767 0) [500; 515] =
    (Pot.mkPot 15 0, [Pot.Return 15; Pot.NoReturn]) /\
  Pot.updates 32767 (Pot.Potentiometer_new 32767 0) [500; 560; 540] =
    (Pot.mkPot 17 0, [Pot.Return 15; Pot.Return 17; Pot.NoReturn]).
Proof. split; reflexivity. Qed.

(** ** The single instance *)

Section Instance.

Import Rotary.

Lemma ctor_registers_first this pin_a pin_b max_index seg rd w :
  instance_ w = None ->
  instance_ (RotaryEncoder_ctor this pin_a pin_b max_index seg rd w) = Some this.
Proof. intros H. unfold RotaryEncoder_ctor. cbn. now rewrite H. Qed.

(** C5, as the code has it.  Building a second [RotaryEncoder] while
    [instance_] points to a first one does not fail: the constructor
    runs to its end, the new object exists and [pin_isr] is attached to
    its two pins, and [instance_] still points to the first object.  The
    handler, whichever pin fires, then works on the first object and
    leaves the second as it was built. *)
Theorem second_instance_first_writer_wins
    this first pin_a pin_b max_index seg rd (w : World) :
  instance_ w = Some first -> this <> first ->
  let w' := RotaryEncoder_ctor this pin_a pin_b max_index seg rd w in
  let enc := RotaryEncoder_new pin_a pin_b max_index seg
               (rd (u8 pin_a)) (rd (u8 pin_b)) in
  instance_ w' = Some first /\
  heap w' !! this = Some enc /\
  heap w' !! first = heap w !! first /\
  u8 pin_a ∈ attached w' /\ u8 pin_b ∈ attached w' /\
  (forall rd' w'', pin_isr rd' w' = Some w'' ->
     instance_ w'' = Some first /\ heap w'' !! this = Some enc).
Proof.
  intros Hi Hne w' enc. subst w'. unfold RotaryEncoder_ctor.
  cbn [instance_ heap attached]. rewrite Hi. fold enc.
  split; [ reflexivity | ].
  split; [ apply lookup_insert_eq | ].
  split; [ now apply lookup_insert_ne | ].
  split; [ set_solver | ].
  split; [ set_solver | ].
  intros rd' w''. unfold pin_isr. cbn [instance_ heap attached].
  rewrite lookup_insert_ne by exact Hne.
  destruct (heap w !! first) as [e | ]; [ | discriminate ].
  intros [= <-]. cbn [instance_ heap].
  split; [ reflexivity | ].
  rewrite lookup_insert_ne by congruence. apply lookup_insert_eq.
Qed.

Lemma second_instance_first_writer_wins_witness :
  let w1 := RotaryEncoder_ctor 1 18 19 4 [] (fun _ => HIGH) World_start in
  let w2 := RotaryEncoder_ctor 2 2 3 4 [] (fun _ => HIGH) w1 in
  instance_ w2 = Some 1%positive.
Proof.
  intros w1 w2.
  assert (Hi : instance_ w1 = Some 1%positive) by reflexivity.
  assert (Hne : 2%positive <> 1%positive) by discriminate.
  destruct (second_instance_first_writer_wins 2 1 2 3 4 [] (fun _ => HIGH) w1 Hi Hne)
    as (H & _).
  exact H.
Defined.

(** C5, counterexample.  A first decoder is built on pins 18 and 19,
    then a second one on pins 2 and 3 while the first is live.  The
    second construction goes through: the object is in the heap and its
    interrupts are attached; [instance_] is still the first object. *)
Lemma second_instance_is_built :
  let w1 := RotaryEncoder_ctor 1 18 19 4 [] (fun _ => HIGH) World_start in
  let w2 := RotaryEncoder_ctor 2 2 3 4 [] (fun _ => HIGH) w1 in
  instance_ w1 = Some 1%positive /\
  instance_ w2 = Some 1%positive /\
  heap w2 !! 2%positive = Some (RotaryEncoder_new 2 3 4 [] HIGH HIGH) /\
  heap w2 !! 1%positive = Some (RotaryEncoder_new 18 19 4 [] HIGH HIGH) /\
  2 ∈ attached w2 /\ 3 ∈ attached w2.
Proof.
  intros w1 w2. subst w1 w2. unfold RotaryEncoder_ctor, World_start.
  cbn [instance_ heap attached].
  split; [ reflexivity | ].
  split; [ reflexivity | ].
  split; [ apply lookup_insert_eq | ].
  split; [ rewrite lookup_insert_ne by discriminate; apply lookup_insert_eq | ].
  change (u8 2) with 2. change (u8 3) with 3.
  split; set_solver.
Qed.

End Instance.

(** ** Pacing *)

Section Pacing.

Import Monger.

Lemma Int_part_mono (r1 r2 : R) : (r1 <= r2)%R -> Int_part r1 <= Int_part r2.
Proof.
  intros Hle.
  destruct (base_Int_part r1) as [H1 _].
  destruct (base_Int_part r2) as [_ H2].
  destruct (Z_lt_le_dec (Int_part r2) (Int_part r1)) as [Hlt | Hge]; [ | exact Hge ].
  exfalso.
  assert (H : (IZR (Int_part r2) + 1 <= IZR (Int_part r1))%R).
  { rewrite <- plus_IZR. apply IZR_le. lia. }
  lra.
Qed.

Lemma Rtrunc_nonneg (r : R) : (0 <= r)%R -> Rtrunc r = Int_part r /\ 0 <= Rtrunc r.
Proof.
  intros H. unfold Rtrunc. destruct (Rle_dec 0 r) as [_ | n]; [ | contradiction ].
  split; [ reflexivity | ].
  assert (E0 : Int_part 0%R = 0) by (symmetry; apply Int_part_spec; lra).
  rewrite <- E0. now apply Int_part_mono.
Qed.

(** A reading of zero: the divisor is one and the interval 1000 ms. *)
Lemma interval_divisor_zero : interval_divisor 0 = 1%R.
Proof. reflexivity. Qed.

Lemma interval_millis_zero : interval_millis 0 = Some 1000.
Proof.
  unfold interval_millis, fdiv. rewrite interval_divisor_zero.
  destruct (Req_dec_T 1 0) as [E | _]; [ lra | ].
  unfold to_ulong.
  replace (1000 / 1)%R with (IZR 1000) by lra.
  assert (Ht : Rtrunc (IZR 1000) = 1000).
  { destruct (Rtrunc_nonneg (IZR 1000)) as [-> _]; [ lra | ].
    symmetry. apply Int_part_spec. lra. }
  rewrite Ht. reflexivity.
Qed.

(** Readings from 2 on: the divisor is above one half and grows with
    the reading. *)
Lemma interval_divisor_from_2 freq :
  2 <= freq -> interval_divisor freq = ln (IZR freq) /\ (/ 2 < ln (IZR freq))%R.
Proof.
  intros H. unfold interval_divisor.
  destruct (Z.eqb_spec freq 0); [ lia | ]. cbn [negb].
  split; [ reflexivity | ].
  apply Rlt_le_trans with (ln 2); [ exact ln_lt_2 | ].
  destruct (Z.eq_dec freq 2) as [-> | Hne]; [ lra | ].
  left. apply ln_increasing; [ lra | apply IZR_lt; lia ].
Qed.

Lemma ln_IZR_mono f1 f2 : 1 <= f1 <= f2 -> (ln (IZR f1) <= ln (IZR f2))%R.
Proof.
  intros H. destruct (Z.eq_dec f1 f2) as [-> | Hne]; [ lra | ].
  left. apply ln_increasing; [ apply IZR_lt; lia | apply IZR_lt; lia ].
Qed.

(** For readings from 2 on the interval is defined, at most 2000 ms,
    and a higher reading never gives a longer interval. *)
Lemma interval_millis_from_2 freq :
  2 <= freq ->
  interval_millis freq = Some (Int_part (1000 / ln (IZR freq))) /\
  0 <= Int_part (1000 / ln (IZR freq)) <= 2000.
Proof.
  intros H. destruct (interval_divisor_from_2 freq H) as [Hd Hpos].
  unfold interval_millis, fdiv. rewrite Hd.
  destruct (Req_dec_T (ln (IZR freq)) 0) as [E | _]; [ lra | ].
  assert (Hq : (0 <= 1000 / ln (IZR freq) <= 2000)%R).
  { assert (Hi : (0 < / ln (IZR freq) <= 2)%R).
    { split; [ apply Rinv_0_lt_compat; lra | ].
      replace 2%R with (/ / 2)%R by (apply Rinv_inv).
      apply Rinv_le_contravar; lra. }
    unfold Rdiv. lra. }
  destruct (Rtrunc_nonneg _ (proj1 Hq)) as [Ht Hnn].
  assert (Hub : Int_part (1000 / ln (IZR freq)) <= 2000).
  { replace 2000 with (Int_part 2000) by (symmetry; apply Int_part_spec; lra).
    apply Int_part_mono. lra. }
  unfold to_ulong. rewrite Ht in *.
  destruct (Z.leb_spec 0 (Int_part (1000 / ln (IZR freq)))); [ | lia ].
  destruct (Z.leb_spec (Int_part (1000 / ln (IZR freq))) ULONG_MAX);
    [ cbn; split; [ reflexivity | lia ] | unfold ULONG_MAX in *; lia ].
Qed.

Lemma interval_millis_antitone f1 f2 q1 q2 :
  2 <= f1 <= f2 ->
  interval_millis f1 = Some q1 -> interval_millis f2 = Some q2 -> q2 <= q1.
Proof.
  intros H H1 H2.
  destruct (interval_millis_from_2 f1) as [E1 _]; [ lia | ].
  destruct (interval_millis_from_2 f2) as [E2 _]; [ lia | ].
  rewrite E1 in H1. rewrite E2 in H2. injection H1 as <-. injection H2 as <-.
  apply Int_part_mono.
  destruct (interval_divisor_from_2 f1) as [_ P1]; [ lia | ].
  destruct (interval_divisor_from_2 f2) as [_ P2]; [ lia | ].
  pose proof (ln_IZR_mono f1 f2 ltac:(lia)) as Hm.
  unfold Rdiv. apply Rmult_le_compat_l; [ lra | ].
  apply Rinv_le_contravar; lra.
Qed.

(** C6, at the failing input.  For the reading 1 the test
    [freq != 0] passes and the divisor is [log(1)], which is zero: line
    127 divides 1000 by zero, and the interval is not a defined
    [unsigned long].  (For the reading 0 the divisor is one, and from 2
    on it is positive and grows with the reading.) *)
Theorem interval_divides_by_zero_at_one :
  interval_divisor 1 = 0%R /\
  fdiv 1000 (interval_divisor 1) = None /\
  interval_millis 1 = None.
Proof.
  assert (H : interval_divisor 1 = 0%R).
  { unfold interval_divisor. cbn [Z.eqb negb]. exact ln_1. }
  assert (Hd : fdiv 1000 (interval_divisor 1) = None).
  { unfold fdiv. rewrite H.
    destruct (Req_dec_T 0 0) as [_ | n]; [ reflexivity | now contradiction n ]. }
  split; [ exact H | ]. split; [ exact Hd | ].
  unfold interval_millis. now rewrite Hd.
Qed.

End Pacing.

(** ** The LED programs *)

Section Programs.

Import Led.

(** A property kept by the body is kept by the counted loop. *)
Lemma for_range_keeps {S : Type} (P : S -> Prop) (body : nat -> S -> S) :
  (forall i s, P s -> P (body i s)) ->
  forall n first s, P s -> P (for_range first n body s).
Proof.
  intros Hbody. induction n as [ | n IH ]; intros first s Hs; [ exact Hs | ].
  cbn [for_range]. apply IH, Hbody, Hs.
Qed.

Lemma for_range_S {S : Type} (first n : nat) (body : nat -> S -> S) (s : S) :
  for_range first (Datatypes.S n) body s = for_range (Datatypes.S first) n body (body first s).
Proof. reflexivity. Qed.

(** The filling loop, started at pixel [i] with [n] pixels to go. *)
Lemma fill_from c : forall n i s,
  (i + n)%nat = length (pixels s) ->
  pixels (for_range i n (fun j s => setPixelColor s j c) s) =
    take i (pixels s) ++ repeat c n.
Proof.
  induction n as [ | n IH ]; intros i s Hlen.
  - cbn [for_range repeat]. rewrite app_nil_r.
    symmetry. apply take_ge. lia.
  - cbn [for_range]. rewrite IH.
    + cbn [setPixelColor pixels].
      rewrite (take_S_r _ _ c) by (apply list_lookup_insert_eq; lia).
      rewrite take_insert_ge by lia.
      rewrite <- app_assoc. reflexivity.
    + cbn [setPixelColor pixels]. rewrite length_insert. lia.
Qed.

(** [fill] writes the colour into every pixel, and nothing else. *)
Lemma fill_pixels s c : pixels (fill s c) = repeat c (numPixels s).
Proof. unfold fill. rewrite fill_from by reflexivity. reflexivity. Qed.

Lemma fill_brightness s c : brightness_ (fill s c) = brightness_ s.
Proof.
  unfold fill.
  apply (for_range_keeps (fun s' => brightness_ s' = brightness_ s)); auto.
Qed.

Lemma fill_pins s c : pins (fill s c) = pins s.
Proof.
  unfold fill. apply (for_range_keeps (fun s' => pins s' = pins s)); auto.
Qed.

(** Called for a strip other than strip 0, every program returns at
    once: neither its data members nor the strip change. *)
Lemma updateStrip_skip p s strip_nr brightness freq :
  strip_nr <> 0 -> updateStrip p s strip_nr brightness freq = (p, s).
Proof.
  intros Hne.
  destruct p; cbn [updateStrip];
    unfold BlinkerProg_updateStrip, RgbBlinkerProg_updateStrip,
           SingleColorProg_updateStrip, ColorTempProg_updateStrip;
    destruct (Z.eqb_spec strip_nr 0); try contradiction; reflexivity.
Qed.

(** Called for strip 0, a program fills the strip with one colour; the
    colour and the new data members do not depend on the strip. *)
Lemma updateStrip_zero p brightness freq :
  exists p' c, forall s, updateStrip p s 0 brightness freq = (p', fill s c).
Proof.
  destruct p; cbn [updateStrip];
    unfold BlinkerProg_updateStrip, RgbBlinkerProg_updateStrip,
           SingleColorProg_updateStrip, ColorTempProg_updateStrip;
    cbn [Z.eqb negb]; eexists; eexists; intros s; reflexivity.
Qed.

Lemma updateStrip_zero_fst p s1 s2 brightness freq :
  fst (updateStrip p s1 0 brightness freq) = fst (updateStrip p s2 0 brightness freq).
Proof.
  destruct (updateStrip_zero p brightness freq) as (p' & c & H).
  now rewrite !H.
Qed.

Lemma updateStrip_zero_pixels p s1 s2 brightness freq :
  numPixels s1 = numPixels s2 ->
  pixels (snd (updateStrip p s1 0 brightness freq)) =
  pixels (snd (updateStrip p s2 0 brightness freq)).
Proof.
  intros Hn. destruct (updateStrip_zero p brightness freq) as (p' & c & H).
  rewrite !H. cbn [snd]. rewrite !fill_pixels. now rewrite Hn.
Qed.

Lemma updateStrip_zero_pins p s brightness freq :
  pins (snd (updateStrip p s 0 brightness freq)) = pins s.
Proof.
  destruct (updateStrip_zero p brightness freq) as (p' & c & H).
  rewrite H. apply fill_pins.
Qed.

Lemma SingleColorProg_order_independent : Monger.order_independent SingleColorProg.
Proof. intros s brightness freq. reflexivity. Qed.

Lemma ColorTempProg_order_independent : Monger.order_independent ColorTempProg.
Proof. intros s brightness freq. reflexivity. Qed.

(** The blinker is not: rendering flips its [on]. *)
Lemma BlinkerProg_not_order_independent on :
  ~ Monger.order_independent (BlinkerProg on).
Proof.
  intros H. specialize (H Monger.strip_start 0 0).
  cbn in H. destruct on; discriminate H.
Qed.

End Programs.

(** ** The rendering loop *)

Section Rendering.

Import Led Monger.

Variables brightness freq : Z.

(** The argument of [setBrightness], as the register keeps it. *)
Local Abbreviation scale := (u8 (brightness / (maxBrightness / 255))).

Lemma events_snoc4 (ev : list Event) a b c d :
  (((ev ++ [a]) ++ [b]) ++ [c]) ++ [d] = ev ++ [a; b; c; d].
Proof. now rewrite <- !app_assoc. Qed.

(** Strip 0: the program is called and fills the buffer. *)
Lemma loop_body_first t :
  let r := updateStrip (prog t) (updatePins (strip t) HwSpi) 0 brightness freq in
  prog (loop_body brightness freq 0 t) = fst r /\
  pixels (strip (loop_body brightness freq 0 t)) = pixels (snd r) /\
  events (loop_body brightness freq 0 t) =
    events t ++ strip_events scale (pixels (snd r)) 0.
Proof.
  intros r. unfold loop_body.
  change (strip_pins 0) with HwSpi. change (u8 (Z.of_nat 0)) with 0. fold r.
  cbn [prog strip events setBrightness pixels brightness_ pins].
  repeat split. rewrite events_snoc4. unfold strip_events.
  change (strip_pins 0) with HwSpi. change (Z.of_nat 0) with 0.
  subst r. rewrite updateStrip_zero_pins. reflexivity.
Qed.

(** A later strip: the program is called and returns at once; the
    buffer goes out as it is. *)
Lemma loop_body_later i t :
  (0 < i < 256)%nat ->
  prog (loop_body brightness freq i t) = prog t /\
  pixels (strip (loop_body brightness freq i t)) = pixels (strip t) /\
  events (loop_body brightness freq i t) =
    events t ++ strip_events scale (pixels (strip t)) i.
Proof.
  intros Hi. unfold loop_body.
  assert (Hnr : u8 (Z.of_nat i) = Z.of_nat i) by (apply u8_small; lia).
  rewrite Hnr. rewrite updateStrip_skip by lia.
  cbn [fst snd prog strip events setBrightness updatePins pixels brightness_ pins].
  repeat split. now rewrite events_snoc4.
Qed.

Lemma later_strips : forall n i t,
  (0 < i)%nat -> (i + n <= 256)%nat ->
  prog (for_range i n (loop_body brightness freq) t) = prog t /\
  pixels (strip (for_range i n (loop_body brightness freq) t)) = pixels (strip t) /\
  events (for_range i n (loop_body brightness freq) t) =
    events t ++ flat_map (strip_events scale (pixels (strip t))) (seq i n).
Proof.
  induction n as [ | n IH ]; intros i t Hi Hn.
  - cbn [for_range seq flat_map]. now rewrite app_nil_r.
  - cbn [for_range seq flat_map].
    destruct (loop_body_later i t) as (Hp & Hx & He); [ lia | ].
    destruct (IH (S i) (loop_body brightness freq i t)) as (Hp' & Hx' & He');
      [ lia | lia | ].
    rewrite Hp', Hx', He', Hp, Hx, He.
    repeat split. now rewrite <- app_assoc.
Qed.

(** One pass of the loop: what it leaves and what it did. *)
Lemma loop_render_trace t :
  let r := updateStrip (prog t) (updatePins (strip t) HwSpi) 0 brightness freq in
  prog (loop_render brightness freq t) = fst r /\
  pixels (strip (loop_render brightness freq t)) = pixels (snd r) /\
  events (loop_render brightness freq t) =
    events t ++ flat_map (strip_events scale (pixels (snd r))) (seq 0 nr_strips).
Proof.
  intros r. unfold loop_render, nr_strips.
  rewrite (for_range_S 0 7).
  destruct (loop_body_first t) as (Hp & Hx & He). fold r in Hp, Hx, He.
  destruct (later_strips 7 1 (loop_body brightness freq 0 t)) as (Hp' & Hx' & He');
    [ lia | lia | ].
  rewrite Hp', Hx', He', Hp, Hx, He.
  repeat split. rewrite <- app_assoc. reflexivity.
Qed.

Lemma frames_app ev1 ev2 : frames (ev1 ++ ev2) = frames ev1 ++ frames ev2.
Proof. unfold frames. apply flat_map_app. Qed.

Lemma calls_app ev1 ev2 : calls (ev1 ++ ev2) = calls ev1 ++ calls ev2.
Proof. unfold calls. apply flat_map_app. Qed.

Lemma frames_strip_events b data l :
  frames (flat_map (strip_events b data) l) = map (fun _ => data) l.
Proof.
  induction l as [ | i l IH ]; [ reflexivity | ].
  cbn [flat_map map]. rewrite frames_app, IH. reflexivity.
Qed.

Lemma calls_strip_events b data l :
  calls (flat_map (strip_events b data) l) = map Z.of_nat l.
Proof.
  induction l as [ | i l IH ]; [ reflexivity | ].
  cbn [flat_map map]. rewrite calls_app, IH. reflexivity.
Qed.

(** C7. One pass of the loop does, for the strips 0, 1, ..., 7 in this
    order and one strip after the other: select the pins of the strip,
    call the active program once with the number of the strip, set the
    brightness register to the brightness reading divided by
    maxBrightness / 255 = 4, and show the buffer; the program is called
    exactly once per strip, with the numbers 0 to 7 ascending, each
    below the number of strips. *)
Theorem loop_renders_strips_in_order t :
  let r := updateStrip (prog t) (updatePins (strip t) HwSpi) 0 brightness freq in
  events (loop_render brightness freq t) =
    events t ++ flat_map (strip_events scale (pixels (snd r))) (seq 0 nr_strips) /\
  calls (events (loop_render brightness freq t)) =
    calls (events t) ++ [0; 1; 2; 3; 4; 5; 6; 7] /\
  Forall (fun n => 0 <= n < Z.of_nat nr_strips) [0; 1; 2; 3; 4; 5; 6; 7] /\
  maxBrightness / 255 = 4.
Proof.
  intros r. destruct (loop_render_trace t) as (_ & _ & He). fold r in He.
  split; [ exact He | ].
  split; [ rewrite He, calls_app, calls_strip_events; reflexivity | ].
  split; [ | reflexivity ].
  repeat (constructor; [ unfold nr_strips; lia | ]). constructor.
Qed.

(** The frames of one pass: eight times the pixel data the call for
    strip 0 wrote. *)
Lemma loop_render_frames p s :
  frames (events (loop_render brightness freq
                    {| prog := p; strip := s; events := [] |})) =
  repeat (pixels (snd (updateStrip p (updatePins s HwSpi) 0 brightness freq)))
         nr_strips.
Proof.
  destruct (loop_render_trace {| prog := p; strip := s; events := [] |})
    as (_ & _ & He).
  cbn [prog strip events] in He. rewrite He. cbn [app].
  rewrite frames_strip_events. reflexivity.
Qed.

(** C9. Called with a strip number other than 0, each of the four
    programs returns the strip and its own data members unchanged.  In
    one pass of the loop, therefore, all eight buffers shown hold the
    pixel data the call for strip 0 wrote, and the program is left as
    that one call left it: the blinker has flipped [on] once. *)
Theorem later_strips_replay_strip_0 p s :
  let t := loop_render brightness freq {| prog := p; strip := s; events := [] |} in
  let r := updateStrip p (updatePins s HwSpi) 0 brightness freq in
  (forall s' strip_nr b f,
     strip_nr <> 0 -> updateStrip p s' strip_nr b f = (p, s')) /\
  frames (events t) = repeat (pixels (snd r)) nr_strips /\
  prog t = fst r /\
  (forall on, p = BlinkerProg on -> prog t = BlinkerProg (negb on)) /\
  (forall on rgb, p = RgbBlinkerProg on rgb ->
     exists rgb', prog t = RgbBlinkerProg (negb on) rgb').
Proof.
  intros t r.
  destruct (loop_render_trace {| prog := p; strip := s; events := [] |})
    as (Hp & _ & He).
  cbn [prog strip events] in Hp, He. fold t r in Hp, He.
  split; [ intros; now apply updateStrip_skip | ].
  split; [ apply loop_render_frames | ].
  split; [ exact Hp | ].
  split.
  - intros on ->. rewrite Hp. reflexivity.
  - intros on rgb ->. rewrite Hp. eexists. reflexivity.
Qed.


End Rendering.


(** ** One pass of [loop()] *)

Section Loop.

Import Led Monger.

(** With the encoder built for [nr_progs] programs, [progs[which_prog]]
    is always in bounds, and the pass does the rendering on the program
    selected. *)
Lemma loop_runs freq brightness s :
  Rotary.max_index_ (rot s) = nr_progs ->
  length (progs s) = Z.to_nat nr_progs ->
  exists p s',
    progs s !! Z.to_nat (Rotary.getIndex (rot s)) = Some p /\
    loop freq brightness s = Some s' /\
    0 <= which_prog s' < nr_progs /\
    shown s' =
      events (loop_render brightness freq
                {| prog := p; strip := the_strip s; events := shown s |}).
Proof.
  intros Hmax Hlen.
  assert (Hidx : 0 <= Rotary.getIndex (rot s) < nr_progs).
  { unfold Rotary.getIndex. rewrite Hmax. change nr_progs with 4.
    pose proof (Z.mod_pos_bound (Rotary.rotary_index_ (rot s)) 4 ltac:(lia)).
    rewrite u8_small; lia. }
  destruct (lookup_lt_is_Some_2 (progs s) (Z.to_nat (Rotary.getIndex (rot s))))
    as [p Hp]; [ lia | ].
  exists p. unfold loop. rewrite Hp.
  eexists. split; [ reflexivity | ]. split; [ reflexivity | ].
  cbn [which_prog shown]. split; [ exact Hidx | reflexivity ].
Qed.

End Loop.

(** ** The scenarios of the specification *)

(** With modulus 4, three clean clockwise quarter turns select program
    3, and a fourth wraps to program 0. *)
Example three_turns_select_3 :
  let enc := Rotary.RotaryEncoder_new 18 19 4 [] Rotary.HIGH Rotary.HIGH in
  Rotary.getIndex (Rotary.run_turns enc [Rotary.CW; Rotary.CW; Rotary.CW]) = 3 /\
  Rotary.getIndex
    (Rotary.run_turns enc [Rotary.CW; Rotary.CW; Rotary.CW; Rotary.CW]) = 0.
Proof. split; reflexivity. Qed.

(** The readings 500, 503, 497, 560 on a fresh reader: bin 15, no
    change, no change, bin 17. *)
Example readings_500_503_497_560 :
  Pot.updates 32767 (Pot.Potentiometer_new 32767 0) [500; 503; 497; 560] =
    (Pot.mkPot 17 0,
     [Pot.Return 15; Pot.Return (Pot.NO_CHANGE 32767);
      Pot.Return (Pot.NO_CHANGE 32767); Pot.Return 17]).
Proof. reflexivity. Qed.

(** A missed edge is made up for by the middle position: 00, 01, 11, 00
    counts one step up. *)
Example missing_edge_counts :
  let enc := Rotary.RotaryEncoder_new 18 19 4 [] Rotary.HIGH Rotary.HIGH in
  Rotary.rotary_index_ (Rotary.run enc [1; 3; 0]) = 1.
Proof. reflexivity. Qed.

(** One pass with the blinker: the eight frames are all white, and the
    blinker is on. *)
Example blinker_tick :
  let t := Monger.loop_render 1023 10
             {| Monger.prog := Led.BlinkerProg false;
                Monger.strip :=
                  {| Led.pixels := [0; 0; 0]; Led.brightness_ := 0;
                     Led.pins := Led.HwSpi |};
                Monger.events := [] |} in
  Monger.frames (Monger.events t) = repeat (repeat 16777215 3) 8 /\
  Monger.prog t = Led.BlinkerProg true /\
  Led.brightness_ (Monger.strip t) = 255.
Proof. vm_compute. repeat split; reflexivity. Qed.

(** * Further properties of the code *)

(** ** The decoder: bounces, excursions, display *)

Section DecoderMore.

Import Rotary.

Lemma pin_isr_body_same enc a b :
  read_pos a b = enc_prev_pos_ enc -> pin_isr_body enc a b = enc.
Proof.
  intros E. destruct enc as [seg pa pb prev fl idx mx]. cbn in E.
  unfold pin_isr_body. cbn [enc_prev_pos_ enc_flags_ rotary_index_ max_index_
                              seven_seg_ pin_a_ pin_b_].
  rewrite E, Z.eqb_refl. reflexivity.
Qed.

(** X1. The handler invoked a second time on the same pin levels
    changes nothing: not the counter, not the flags, not the display.
    Anywhere in a sequence of invocations, a bounce that reads the
    position just seen can be left out without changing the outcome. *)
Theorem repeated_position_ignored enc
    (before after : list (PinLevel * PinLevel)) a b :
  pin_isr_body (pin_isr_body enc a b) a b = pin_isr_body enc a b /\
  run_levels enc (before ++ (a, b) :: (a, b) :: after) =
    run_levels enc (before ++ (a, b) :: after).
Proof.
  assert (Hidem : forall e, pin_isr_body (pin_isr_body e a b) a b =
                            pin_isr_body e a b).
  { intros e. apply pin_isr_body_same. now rewrite pin_isr_body_prev. }
  split; [ apply Hidem | ].
  unfold run_levels. rewrite !fold_left_app. cbn [fold_left fst snd].
  now rewrite Hidem.
Qed.

Lemma pin_isr_body_display enc a b :
  (seven_seg_ (pin_isr_body enc a b) = seven_seg_ enc /\
   rotary_index_ (pin_isr_body enc a b) = rotary_index_ enc) \/
  seven_seg_ (pin_isr_body enc a b) =
    (rotary_index_ (pin_isr_body enc a b) mod max_index_ enc) :: seven_seg_ enc.
Proof.
  unfold pin_isr_body.
  destruct (negb _); [ | left; split; reflexivity ].
  destruct (_ =? 3); [ left; split; reflexivity | ].
  destruct (_ =? 0); [ | left; split; reflexivity ].
  unfold decide_step.
  destruct (_ && _); [ right; reflexivity | ].
  destruct (_ && _); [ right; reflexivity | left; split; reflexivity ].
Qed.

Lemma pin_isr_body_away enc a b :
  read_pos a b <> 0 ->
  rotary_index_ (pin_isr_body enc a b) = rotary_index_ enc /\
  seven_seg_ (pin_isr_body enc a b) = seven_seg_ enc.
Proof.
  intros Hne. unfold pin_isr_body.
  destruct (negb _); [ | split; reflexivity ].
  destruct (_ =? 3); [ split; reflexivity | ].
  destruct (Z.eqb_spec (read_pos a b) 0); [ contradiction | split; reflexivity ].
Qed.

(** X2. As long as the pins do not read 00, the counter and the display
    stay as they are, whatever the positions and however many: a step is
    counted at the return to 00 and nowhere else. *)
Theorem counter_waits_for_idle enc (ls : list (PinLevel * PinLevel)) :
  Forall (fun ab => read_pos (fst ab) (snd ab) <> 0) ls ->
  rotary_index_ (run_levels enc ls) = rotary_index_ enc /\
  seven_seg_ (run_levels enc ls) = seven_seg_ enc.
Proof.
  intros Hall. revert enc.
  induction Hall as [ | [a b] ls Hab _ IH ]; intros enc; [ split; reflexivity | ].
  change (run_levels enc ((a, b) :: ls))
    with (run_levels (pin_isr_body enc a b) ls).
  destruct (IH (pin_isr_body enc a b)) as [-> ->].
  now apply pin_isr_body_away.
Qed.

Lemma counter_waits_for_idle_witness :
  rotary_index_
    (run_levels (RotaryEncoder_new 18 19 4 [] HIGH HIGH)
       [(LOW, HIGH); (LOW, LOW); (HIGH, LOW); (LOW, LOW); (LOW, HIGH)]) = 0.
Proof.
  assert (H : Forall (fun ab => read_pos (fst ab) (snd ab) <> 0)
                [(LOW, HIGH); (LOW, LOW); (HIGH, LOW); (LOW, LOW); (LOW, HIGH)]).
  { repeat (constructor; [ vm_compute; discriminate | ]). constructor. }
  destruct (counter_waits_for_idle (RotaryEncoder_new 18 19 4 [] HIGH HIGH) _ H)
    as [Hi _].
  exact Hi.
Defined.

(** One invocation inside an excursion: only the mid-step flag can be
    added, and only on arriving at 11. *)
Lemma isr_at_excursion enc q :
  enc_prev_pos_ enc = 1 \/ enc_prev_pos_ enc = 2 \/ enc_prev_pos_ enc = 3 ->
  q = 1 \/ q = 2 \/ q = 3 ->
  enc_prev_pos_ (isr_at enc q) = q /\
  rotary_index_ (isr_at enc q) = rotary_index_ enc /\
  enc_flags_ (isr_at enc q) =
    if (q =? 3) && negb (enc_prev_pos_ enc =? 3)
    then set_flag (enc_flags_ enc) 4 else enc_flags_ enc.
Proof.
  intros Hp Hq. destruct enc as [seg pa pb prev fl idx mx]. cbn in Hp |- *.
  destruct Hp as [-> | [-> | ->]], Hq as [-> | [-> | ->]];
    repeat split; reflexivity.
Qed.

(** The flags during an excursion that began with first-edge flags
    [base]: [base], plus the mid-step flag once 11 has been seen. *)
Lemma run_excursion_flags mid : forall enc base (seen : bool),
  base = 0 \/ base = 1 \/ base = 2 ->
  enc_prev_pos_ enc = 1 \/ enc_prev_pos_ enc = 2 \/ enc_prev_pos_ enc = 3 ->
  (enc_prev_pos_ enc = 3 -> seen = true) ->
  enc_flags_ enc = base + (if seen then 16 else 0) ->
  Forall (fun q => q = 1 \/ q = 2 \/ q = 3) mid ->
  enc_flags_ (run enc mid) =
    base + (if seen || existsb (Z.eqb 3) mid then 16 else 0) /\
  rotary_index_ (run enc mid) = rotary_index_ enc /\
  enc_prev_pos_ (run enc mid) = List.last mid (enc_prev_pos_ enc).
Proof.
  induction mid as [ | q mid IH ]; intros enc base seen Hb Hp Hs Hf Hall.
  - cbn. rewrite orb_false_r. auto.
  - inversion Hall as [ | ? ? Hq Hall' ]; subst.
    destruct (isr_at_excursion enc q Hp Hq) as (Hp1 & Hi1 & Hf1).
    change (run enc (q :: mid)) with (run (isr_at enc q) mid).
    destruct (IH (isr_at enc q) base (seen || (q =? 3))) as (Hf2 & Hi2 & Hp2);
      [ exact Hb | rewrite Hp1; exact Hq | | | exact Hall' | ].
    + rewrite Hp1. intros ->. apply orb_true_r.
    + rewrite Hf1, Hf.
      destruct Hq as [-> | [-> | ->]]; cbn [Z.eqb andb Pos.eqb];
        rewrite ?orb_false_r, ?orb_true_r; try reflexivity.
      destruct Hp as [-> | [-> | E3]].
      * cbn [Z.eqb Pos.eqb negb].
        destruct Hb as [-> | [-> | ->]], seen; reflexivity.
      * cbn [Z.eqb Pos.eqb negb].
        destruct Hb as [-> | [-> | ->]], seen; reflexivity.
      * rewrite E3, (Hs E3). reflexivity.
    + rewrite Hf2, Hi2, Hp2, Hi1, Hp1, last_cons.
      cbn [existsb]. rewrite (Z.eqb_sym 3 q), orb_assoc. auto.
Qed.

(** X3. The whole acceptance rule.  A decoder at rest sees the pins
    leave 00 for the position [p], pass any number of positions other
    than 00, and come back to 00.  A step up is counted exactly when the
    first position was 01 and either 11 was passed or the last position
    was 10; a step down exactly when the first position was 10 and
    either 11 was passed or the last position was 01; otherwise, in
    particular when the first position was 11, nothing is counted. *)
Theorem excursion_verdict enc p mid :
  reachable enc -> enc_prev_pos_ enc = 0 ->
  Forall (fun q => q = 1 \/ q = 2 \/ q = 3) (p :: mid) ->
  rotary_index_ (run enc ((p :: mid) ++ [0])) =
    if (p =? 1) && (existsb (Z.eqb 3) (p :: mid) || (List.last mid p =? 2))
    then u8 (rotary_index_ enc + 1)
    else if (p =? 2) && (existsb (Z.eqb 3) (p :: mid) || (List.last mid p =? 1))
    then u8 (rotary_index_ enc - 1)
    else rotary_index_ enc.
Proof.
  intros Hr Hp0 Hall.
  destruct (reachable_wf _ Hr) as (_ & _ & Hf0). specialize (Hf0 Hp0).
  inversion Hall as [ | ? ? Hp Hall' ]; subst.
  rewrite run_app.
  change (run enc (p :: mid)) with (run (isr_at enc p) mid).
  set (base := if p =? 1 then 1 else if p =? 2 then 2 else 0).
  assert (Hfirst : enc_prev_pos_ (isr_at enc p) = p /\
                   rotary_index_ (isr_at enc p) = rotary_index_ enc /\
                   enc_flags_ (isr_at enc p) = base + (if p =? 3 then 16 else 0)).
  { rewrite (idle_shape enc Hp0 Hf0). subst base.
    destruct Hp as [-> | [-> | ->]]; repeat split; reflexivity. }
  destruct Hfirst as (Hp1 & Hi1 & Hf1).
  destruct (run_excursion_flags mid (isr_at enc p) base (p =? 3))
    as (Hf2 & Hi2 & Hp2).
  { subst base. destruct Hp as [-> | [-> | ->]]; cbn; auto. }
  { rewrite Hp1. exact Hp. }
  { rewrite Hp1. intros ->. reflexivity. }
  { exact Hf1. }
  { exact Hall'. }
  rewrite Hp1 in Hp2. rewrite Hi1 in Hi2.
  assert (Hl : List.last mid p = 1 \/ List.last mid p = 2 \/ List.last mid p = 3).
  { now apply (Forall_last (fun q => q = 1 \/ q = 2 \/ q = 3)). }
  cbn [existsb]. rewrite (Z.eqb_sym 3 p).
  set (e := run (isr_at enc p) mid) in *.
  destruct e as [seg pa pb prev fl idx mx].
  cbn [enc_flags_ rotary_index_ enc_prev_pos_] in Hf2, Hi2, Hp2. subst prev fl idx.
  subst base.
  destruct Hp as [-> | [-> | ->]], Hl as [-> | [-> | ->]];
    cbn [Z.eqb Pos.eqb orb andb];
    destruct (existsb (Z.eqb 3) mid); reflexivity.
Qed.

Lemma excursion_verdict_witness :
  rotary_index_ (run (RotaryEncoder_new 18 19 4 [] HIGH HIGH) ((1 :: [3; 1]) ++ [0]))
    = 1.
Proof.
  assert (Hr : reachable (RotaryEncoder_new 18 19 4 [] HIGH HIGH)) by constructor.
  assert (Hp : enc_prev_pos_ (RotaryEncoder_new 18 19 4 [] HIGH HIGH) = 0)
    by reflexivity.
  assert (Hall : Forall (fun q => q = 1 \/ q = 2 \/ q = 3) (1 :: [3; 1])).
  { repeat (constructor; [ lia | ]). constructor. }
  exact (excursion_verdict _ 1 [3; 1] Hr Hp Hall).
Defined.

End DecoderMore.

Section DecoderDisplay.

Import Rotary.

Lemma run_levels_snoc enc ls a b :
  run_levels enc (ls ++ [(a, b)]) = pin_isr_body (run_levels enc ls) a b.
Proof. unfold run_levels. rewrite fold_left_app. reflexivity. Qed.

Lemma run_levels_reachable enc ls : reachable enc -> reachable (run_levels enc ls).
Proof.
  revert enc. induction ls as [ | [a b] ls IH ]; intros enc H; [ exact H | ].
  apply IH. now constructor.
Qed.

Lemma run_levels_max enc ls : max_index_ (run_levels enc ls) = max_index_ enc.
Proof.
  revert enc. induction ls as [ | [a b] ls IH ]; intros enc; [ reflexivity | ].
  change (run_levels enc ((a, b) :: ls)) with (run_levels (pin_isr_body enc a b) ls).
  now rewrite IH, pin_isr_body_max.
Qed.



(** The handler writes the registered object and nothing else. *)
Lemma pin_isr_frame rd w w' :
  pin_isr rd w = Some w' ->
  instance_ w' = instance_ w /\ attached w' = attached w /\
  forall q, instance_ w <> Some q -> heap w' !! q = heap w !! q.
Proof.
  unfold pin_isr. destruct (instance_ w) as [p | ] eqn:Hi; [ | discriminate ].
  destruct (heap w !! p) as [enc | ]; [ | discriminate ].
  intros [= <-]. cbn [instance_ heap attached].
  repeat split.
  intros q Hq. apply lookup_insert_ne. congruence.
Qed.

(** X5. The destructor does not give the registration back.  Once the
    registered decoder is destroyed, [instance_] still names it: the
    handler has no object to work on, and a decoder built afterwards at
    another address is not registered either, although its interrupts
    are attached. *)
Theorem destroyed_instance_stays_registered
    first this pin_a pin_b max_index seg rd (w : World) enc :
  instance_ w = Some first -> heap w !! first = Some enc -> this <> first ->
  let w1 := RotaryEncoder_dtor first w in
  let w2 := RotaryEncoder_ctor this pin_a pin_b max_index seg rd w1 in
  instance_ w1 = Some first /\
  heap w1 !! first = None /\
  (forall rd', pin_isr rd' w1 = None) /\
  instance_ w2 = Some first /\
  u8 pin_a ∈ attached w2 /\ u8 pin_b ∈ attached w2 /\
  (forall rd', pin_isr rd' w2 = None).
Proof.
  intros Hi He Hne w1 w2.
  assert (H1 : instance_ w1 = Some first /\ heap w1 !! first = None).
  { subst w1. unfold RotaryEncoder_dtor. rewrite He. cbn [instance_ heap].
    split; [ exact Hi | apply lookup_delete_eq ]. }
  destruct H1 as [Hi1 Hh1].
  assert (Hi2 : instance_ w2 = Some first).
  { subst w2. unfold RotaryEncoder_ctor. cbn [instance_]. now rewrite Hi1. }
  assert (Hh2 : heap w2 !! first = None).
  { subst w2. unfold RotaryEncoder_ctor. cbn [heap].
    rewrite lookup_insert_ne by exact Hne. exact Hh1. }
  repeat split; try assumption.
  - intros rd'. unfold pin_isr. now rewrite Hi1, Hh1.
  - subst w2. unfold RotaryEncoder_ctor. cbn [attached]. set_solver.
  - subst w2. unfold RotaryEncoder_ctor. cbn [attached]. set_solver.
  - intros rd'. unfold pin_isr. now rewrite Hi2, Hh2.
Qed.

Lemma destroyed_instance_stays_registered_witness :
  let w := RotaryEncoder_ctor 1 18 19 4 [] (fun _ => HIGH) World_start in
  let w1 := RotaryEncoder_dtor 1 w in
  let w2 := RotaryEncoder_ctor 2 2 3 4 [] (fun _ => HIGH) w1 in
  instance_ w2 = Some 1%positive /\ pin_isr (fun _ => LOW) w2 = None.
Proof.
  intros w w1 w2.
  assert (Hi : instance_ w = Some 1%positive) by reflexivity.
  assert (He : heap w !! 1%positive = Some (RotaryEncoder_new 18 19 4 [] HIGH HIGH)).
  { subst w. unfold RotaryEncoder_ctor. cbn [heap]. apply lookup_insert_eq. }
  assert (Hne : 2%positive <> 1%positive) by discriminate.
  destruct (destroyed_instance_stays_registered 1 2 2 3 4 [] (fun _ => HIGH) w _
              Hi He Hne) as (_ & _ & _ & H2 & _ & _ & H3).
  split; [ exact H2 | exact (H3 (fun _ => LOW)) ].
Defined.

End DecoderDisplay.

(** ** The potentiometer reader: what is reported, and when *)

Section SamplerMore.

Import Pot.

Variable INT_MAX : Z.

Local Abbreviation update := (Pot.update INT_MAX).
Local Abbreviation updates := (Pot.updates INT_MAX).
Local Abbreviation NO_CHANGE := (Pot.NO_CHANGE INT_MAX).

(** The code points of a bin: 32 of them, from [bin << 5] on. *)
Lemma bin_bounds v :
  Z.shiftl (Z.shiftr v ADC_TO_BIN_SHIFT_) ADC_TO_BIN_SHIFT_ <= v <=
  Z.shiftl (Z.shiftr v ADC_TO_BIN_SHIFT_) ADC_TO_BIN_SHIFT_ + (BIN_SIZE_ - 1).
Proof.
  change ADC_TO_BIN_SHIFT_ with 5. change BIN_SIZE_ with 32.
  rewrite Z.shiftr_div_pow2, Z.shiftl_mul_pow2 by lia. change (2 ^ 5) with 32.
  pose proof (Z.div_mod v 32 ltac:(lia)).
  pose proof (Z.mod_pos_bound v 32 ltac:(lia)). lia.
Qed.

(** A reading of the bin the reader is in. *)
Lemma update_at_own_bin pot v :
  current_bin_ pot = Z.shiftr v ADC_TO_BIN_SHIFT_ ->
  update pot v = (pot, Return NO_CHANGE).
Proof.
  intros E. unfold Pot.update. rewrite <- E.
  destruct (Z.eqb_spec (current_bin_ pot) NO_CHANGE) as [En | Hn].
  - destruct pot as [c p].
    cbn [current_bin_] in *. rewrite <- En. reflexivity.
  - rewrite Z.eqb_refl. reflexivity.
Qed.

(** The three ways a call can end. *)
Lemma update_cases pot v :
  (current_bin_ (fst (update pot v)) = Z.shiftr v ADC_TO_BIN_SHIFT_ /\
   snd (update pot v) = Return (Z.shiftr v ADC_TO_BIN_SHIFT_)) \/
  update pot v = (pot, Return NO_CHANGE) \/
  update pot v = (pot, NoReturn).
Proof.
  unfold Pot.update.
  destruct (Z.eqb_spec (current_bin_ pot) NO_CHANGE); [ left; split; reflexivity | ].
  destruct (negb _); [ | right; left; reflexivity ].
  destruct (_ <? _); [ left; split; reflexivity | ].
  destruct (_ >? _); [ left; split; reflexivity | right; right; reflexivity ].
Qed.

(** X6. While the readings stay within the margin around the current
    bin, from [bin_start - HYSTERESIS_] to [bin_end + HYSTERESIS_], the
    reader does not move, however long the sequence and even where a
    reading lies in a neighbouring bin; and no call reports a bin. *)
Theorem readings_within_margin_keep_bin pot (rs : list Z) :
  current_bin_ pot <> NO_CHANGE ->
  let bin_start := Z.shiftl (current_bin_ pot) ADC_TO_BIN_SHIFT_ in
  let bin_end := bin_start + (BIN_SIZE_ - 1) in
  Forall (fun v => bin_start - HYSTERESIS_ <= v <= bin_end + HYSTERESIS_) rs ->
  fst (updates pot rs) = pot /\
  Forall (fun r => r = Return NO_CHANGE \/ r = NoReturn) (snd (updates pot rs)).
Proof.
  intros Hinit bin_start bin_end Hall.
  induction Hall as [ | v rs Hv _ IH ]; [ split; [ reflexivity | constructor ] | ].
  assert (Hstep : update pot v = (pot, Return NO_CHANGE) \/
                  update pot v = (pot, NoReturn)).
  { destruct (Z.eq_dec (Z.shiftr v ADC_TO_BIN_SHIFT_) (current_bin_ pot)) as [E | N].
    - left. now apply update_same_bin.
    - right. now apply (update_other_bin INT_MAX pot v Hinit N). }
  cbn [Pot.updates].
  destruct IH as [IH1 IH2].
  destruct Hstep as [-> | ->];
    destruct (updates pot rs) as [pot2 reports]; cbn [fst snd] in *;
    (split; [ exact IH1 | constructor; [ auto | exact IH2 ] ]).
Qed.

(** X7. Noise of up to [HYSTERESIS_] code points around a reading of
    the current bin never moves the reader, on whichever side of a bin
    boundary the noisy reading falls. *)
Theorem noise_within_margin_ignored pot v0 v :
  current_bin_ pot <> NO_CHANGE ->
  Z.shiftr v0 ADC_TO_BIN_SHIFT_ = current_bin_ pot ->
  Z.abs (v - v0) <= HYSTERESIS_ ->
  fst (update pot v) = pot /\
  (snd (update pot v) = Return NO_CHANGE \/ snd (update pot v) = NoReturn).
Proof.
  intros Hinit Hbin Hnoise.
  destruct (Z.eq_dec (Z.shiftr v ADC_TO_BIN_SHIFT_) (current_bin_ pot)) as [E | N].
  - rewrite update_same_bin by assumption. cbn. auto.
  - destruct (update_other_bin INT_MAX pot v Hinit N) as [_ Hin].
    rewrite Hin; [ cbn; auto | ].
    pose proof (bin_bounds v0) as Hb. rewrite Hbin in Hb.
    unfold HYSTERESIS_ in *. lia.
Qed.

(** X8. The bin never changes behind the caller's back: a call that
    leaves [current_bin_] other than it found it returns the new bin,
    which is the bin of the reading. *)
Theorem bin_change_is_reported pot v :
  current_bin_ (fst (update pot v)) <> current_bin_ pot ->
  snd (update pot v) = Return (current_bin_ (fst (update pot v))) /\
  current_bin_ (fst (update pot v)) = Z.shiftr v ADC_TO_BIN_SHIFT_.
Proof.
  intros Hch.
  destruct (update_cases pot v) as [[E R] | [E | E]].
  - rewrite R, E. auto.
  - rewrite E in Hch. cbn in Hch. contradiction.
  - rewrite E in Hch. cbn in Hch. contradiction.
Qed.

(** X9. Reading the same value again does nothing: the second of two
    calls with one reading leaves the reader as the first left it and
    reports no bin. *)
Theorem same_reading_twice pot v :
  fst (update (fst (update pot v)) v) = fst (update pot v) /\
  (snd (update (fst (update pot v)) v) = Return NO_CHANGE \/
   snd (update (fst (update pot v)) v) = NoReturn).
Proof.
  destruct (update_cases pot v) as [[E _] | [E | E]].
  - rewrite (update_at_own_bin _ v E). cbn. auto.
  - rewrite E. cbn [fst]. rewrite E. cbn. auto.
  - rewrite E. cbn [fst]. rewrite E. cbn. auto.
Qed.

End SamplerMore.

Lemma readings_within_margin_keep_bin_witness :
  fst (Pot.updates 32767 (Pot.mkPot 15 0) [515; 480; 472; 519; 511]) = Pot.mkPot 15 0.
Proof.
  assert (Hinit : Pot.current_bin_ (Pot.mkPot 15 0) <> Pot.NO_CHANGE 32767)
    by (vm_compute; discriminate).
  assert (Hall : Forall (fun v => 480 - 8 <= v <= 480 + (32 - 1) + 8)
                   [515; 480; 472; 519; 511]).
  { repeat (constructor; [ lia | ]). constructor. }
  destruct (readings_within_margin_keep_bin 32767 (Pot.mkPot 15 0) _ Hinit Hall)
    as [H _].
  exact H.
Defined.

Lemma noise_within_margin_ignored_witness :
  fst (Pot.update 32767 (Pot.mkPot 15 0) 517) = Pot.mkPot 15 0.
Proof.
  assert (Hinit : Pot.current_bin_ (Pot.mkPot 15 0) <> Pot.NO_CHANGE 32767)
    by (vm_compute; discriminate).
  assert (Hbin : Z.shiftr 510 Pot.ADC_TO_BIN_SHIFT_ = Pot.current_bin_ (Pot.mkPot 15 0))
    by reflexivity.
  assert (Hn : Z.abs (517 - 510) <= Pot.HYSTERESIS_) by (vm_compute; discriminate).
  destruct (noise_within_margin_ignored 32767 (Pot.mkPot 15 0) 510 517 Hinit Hbin Hn)
    as [H _].
  exact H.
Defined.

Lemma bin_change_is_reported_witness :
  snd (Pot.update 32767 (Pot.mkPot 15 0) 560) = Pot.Return 17.
Proof.
  assert (Hch : Pot.current_bin_ (fst (Pot.update 32767 (Pot.mkPot 15 0) 560))
                <> Pot.current_bin_ (Pot.mkPot 15 0))
    by (vm_compute; discriminate).
  destruct (bin_change_is_reported 32767 (Pot.mkPot 15 0) 560 Hch) as [H _].
  exact H.
Defined.

(** ** The programs: colours *)

Section Colours.

Import Led.

(** X10. The colour wheel.  For every byte the wheel gives a colour
    whose three components are bytes that add up to 255, one of them
    being 0: the wheel runs along the edges red-green-blue of the colour
    cube.  It closes: positions 0 and 255 both give pure red. *)
Theorem wheel_components :
  (forall pos, exists r g b,
      wheel pos = Color r g b /\
      0 <= r <= 255 /\ 0 <= g <= 255 /\ 0 <= b <= 255 /\
      r + g + b = 255 /\ (r = 0 \/ g = 0 \/ b = 0)) /\
  wheel 0 = Color 255 0 0 /\ wheel 255 = Color 255 0 0.
Proof.
  split; [ | split; reflexivity ].
  intros pos. unfold wheel.
  pose proof (u8_range (255 - pos)) as Hp.
  set (p := u8 (255 - pos)) in *.
  destruct (Z.ltb_spec p 85).
  - exists (255 - p * 3), 0, (p * 3). repeat split; lia.
  - destruct (Z.ltb_spec p 170).
    + rewrite (u8_small (p - 85)) by lia.
      exists 0, ((p - 85) * 3), (255 - (p - 85) * 3). repeat split; lia.
    + rewrite (u8_small (p - 170)) by lia.
      exists ((p - 170) * 3), (255 - (p - 170) * 3), 0. repeat split; lia.
Qed.

(** X11. [SingleColorProg] paints every pixel with the wheel colour of
    a quarter of the frequency reading; for a reading of the ADC the
    quarter fits a byte.  At both ends of the range, readings up to 3
    and readings from 1020, the colour is pure red. *)
Theorem single_color_of_reading s brightness freq :
  0 <= freq <= 1023 ->
  pixels (snd (updateStrip SingleColorProg s 0 brightness freq)) =
    repeat (wheel (freq / 4)) (numPixels s) /\
  0 <= freq / 4 <= 255 /\
  (freq <= 3 \/ 1020 <= freq -> wheel (freq / 4) = Color 255 0 0).
Proof.
  intros Hf.
  assert (Hq : 0 <= freq / 4 <= 255).
  { split; [ apply Z.div_pos; lia | ].
    assert (freq / 4 < 256) by (apply Z.div_lt_upper_bound; lia). lia. }
  split; [ | split; [ exact Hq | ] ].
  - cbn [updateStrip]. unfold SingleColorProg_updateStrip. cbn [Z.eqb negb snd].
    rewrite fill_pixels. change (maxFrequency / 255) with 4.
    rewrite (u8_small (freq / 4)) by lia. reflexivity.
  - intros [Hlo | Hhi].
    + assert (E : freq / 4 = 0) by (apply Z.div_small; lia). rewrite E. reflexivity.
    + assert (E : freq / 4 = 255).
      { symmetry. apply (Z.div_unique freq 4 255 (freq - 1020)); lia. }
      rewrite E. reflexivity.
Qed.

Lemma single_color_of_reading_witness :
  pixels (snd (updateStrip SingleColorProg Monger.strip_start 0 0 1023)) =
    repeat (Color 255 0 0) 144.
Proof.
  assert (Hf : 0 <= 1023 <= 1023) by lia.
  destruct (single_color_of_reading Monger.strip_start 0 1023 Hf) as (Hp & _ & Hr).
  rewrite Hp. rewrite Hr by (right; lia). reflexivity.
Defined.

Lemma gc_table_checked :
  forallb (fun n => (0 <=? nth n gc_table 0) && (nth n gc_table 0 <=? Z.of_nat n)
                    && (nth n gc_table 0 <=? nth (S n) gc_table 255)
                    && ((n =? 0)%nat || (1 <=? nth n gc_table 0)))
          (seq 0 256) = true.
Proof. vm_compute. reflexivity. Qed.

Lemma gc_entry (n : nat) :
  (n < 256)%nat ->
  0 <= nth n gc_table 0 <= Z.of_nat n /\
  nth n gc_table 0 <= nth (S n) gc_table 255 /\
  (n <> 0%nat -> 1 <= nth n gc_table 0).
Proof.
  intros Hn. pose proof gc_table_checked as H.
  rewrite forallb_forall in H. specialize (H n).
  assert (Hin : In n (seq 0 256)) by (apply in_seq; lia).
  specialize (H Hin).
  repeat (apply andb_prop in H; destruct H as [H ?]).
  repeat split; try lia.
  intros Hne. destruct (Nat.eqb_spec n 0); [ contradiction | ].
  cbn [orb] in *. lia.
Qed.

Lemma gc_nth_default (n : nat) :
  (S n < 256)%nat -> nth (S n) gc_table 255 = nth (S n) gc_table 0.
Proof. intros H. apply nth_indep. change (length gc_table) with 256%nat. lia. Qed.

Lemma gc_range i : 0 <= gc i <= 255.
Proof.
  unfold gc. destruct (Nat.lt_ge_cases (Z.to_nat i) 256) as [Hlt | Hge].
  - pose proof (gc_entry _ Hlt). lia.
  - rewrite nth_overflow by (change (length gc_table) with 256%nat; lia). lia.
Qed.

Lemma gc_mono_nat (n m : nat) :
  (n <= m)%nat -> (m < 256)%nat -> nth n gc_table 0 <= nth m gc_table 0.
Proof.
  induction 1 as [ | m Hle IH ]; intros Hm; [ lia | ].
  destruct (gc_entry m ltac:(lia)) as (_ & Hs & _).
  rewrite gc_nth_default in Hs by lia.
  specialize (IH ltac:(lia)). lia.
Qed.

(** X12. The gamma table has 256 entries, one for every byte; it never
    brightens ([gc i <= i]), it is monotone, it keeps the two ends
    (0 to 0 and 255 to 255), and only 0 goes to 0: a component that is
    lit stays lit. *)
Theorem gc_table_shape :
  length gc_table = 256%nat /\
  gc 0 = 0 /\ gc 255 = 255 /\
  (forall i, 0 <= i <= 255 -> 0 <= gc i <= i) /\
  (forall i j, 0 <= i <= j -> j <= 255 -> gc i <= gc j) /\
  (forall i, 1 <= i <= 255 -> 1 <= gc i).
Proof.
  split; [ reflexivity | ]. split; [ reflexivity | ]. split; [ reflexivity | ].
  split; [ | split ].
  - intros i Hi. unfold gc.
    destruct (gc_entry (Z.to_nat i) ltac:(lia)) as (H & _). lia.
  - intros i j Hij Hj. unfold gc. apply gc_mono_nat; lia.
  - intros i Hi. unfold gc.
    destruct (gc_entry (Z.to_nat i) ltac:(lia)) as (_ & _ & H). apply H. lia.
Qed.

Lemma clamp_byte x : 0 <= clamp x 0 255 <= 255.
Proof.
  unfold clamp.
  destruct (Z.ltb_spec x 0); [ change (u8 0) with 0; lia | ].
  destruct (Z.gtb_spec x 255); [ change (u8 255) with 255; lia | ].
  rewrite u8_small; lia.
Qed.

(** X13. The colour temperature.  Outside 1000 to 40000 the colour is
    the fallback green.  For a frequency reading of the ADC the
    temperature 8 * freq + 1000 is inside, the table is read within its
    bounds and the three components are bytes; red is full up to the
    reading 712, blue is off up to the reading 124 and full from the
    reading 713. *)
Theorem color_temp_of_reading :
  (forall temp, temp < 1000 \/ 40000 < temp ->
     color_temp_to_rgb temp = Color 0 255 0) /\
  (forall freq, 0 <= freq <= 1023 ->
     exists r g b,
       color_temp_to_rgb (8 * freq + 1000) = Color (gc r) (gc g) (gc b) /\
       0 <= r <= 255 /\ 0 <= g <= 255 /\ 0 <= b <= 255 /\
       (freq <= 712 -> gc r = 255) /\
       (freq <= 124 -> gc b = 0) /\
       (713 <= freq -> gc b = 255)).
Proof.
  split.
  - intros temp Ht. unfold color_temp_to_rgb.
    destruct (Z.gtb_spec temp 40000); [ reflexivity | ].
    destruct (Z.ltb_spec temp 1000); [ reflexivity | lia ].
  - intros freq Hf. unfold color_temp_to_rgb.
    destruct (Z.gtb_spec (8 * freq + 1000) 40000); [ lia | ].
    destruct (Z.ltb_spec (8 * freq + 1000) 1000); [ lia | ].
    cbn [orb].
    set (t := (8 * freq + 1000) / 100).
    assert (Ht : t <= 66 <-> freq <= 712).
    { subst t. split; intros H1.
      - destruct (Z_le_gt_dec freq 712) as [ | Hgt ]; [ assumption | exfalso ].
        assert (67 <= (8 * freq + 1000) / 100)
          by (apply Z.div_le_lower_bound; lia). lia.
      - assert ((8 * freq + 1000) / 100 < 67)
          by (apply Z.div_lt_upper_bound; lia). lia. }
    assert (Ht' : t <= 19 <-> freq <= 124).
    { subst t. split; intros H1.
      - destruct (Z_le_gt_dec freq 124) as [ | Hgt ]; [ assumption | exfalso ].
        assert (20 <= (8 * freq + 1000) / 100)
          by (apply Z.div_le_lower_bound; lia). lia.
      - assert ((8 * freq + 1000) / 100 < 20)
          by (apply Z.div_lt_upper_bound; lia). lia. }
    destruct (Z.leb_spec t 66) as [H66 | H66].
    + destruct (Z.leb_spec t 19) as [H19 | H19].
      * eexists _, _, _. split; [ reflexivity | ].
        repeat split; try apply clamp_byte; intros; try reflexivity; lia.
      * eexists _, _, _. split; [ reflexivity | ].
        repeat split; try apply clamp_byte; intros; try reflexivity; lia.
    + eexists _, _, _. split; [ reflexivity | ].
      repeat split; try apply clamp_byte; intros; try reflexivity; lia.
Qed.

End Colours.

(** ** The programs and the strip *)

Section ProgramsMore.

Import Led.

Lemma fill_numPixels s c : numPixels (fill s c) = numPixels s.
Proof. unfold numPixels at 1. rewrite fill_pixels. apply repeat_length. Qed.

Lemma updateStrip_shape p s strip_nr brightness freq :
  updateStrip p s strip_nr brightness freq = (p, s) \/
  exists p' c, strip_nr = 0 /\
    updateStrip p s strip_nr brightness freq = (p', fill s c).
Proof.
  destruct (Z.eq_dec strip_nr 0) as [-> | Hne].
  - right. destruct (updateStrip_zero p brightness freq) as (p' & c & H).
    exists p', c. split; [ reflexivity | apply H ].
  - left. now apply updateStrip_skip.
Qed.

Lemma updateStrip_numPixels p s strip_nr brightness freq :
  numPixels (snd (updateStrip p s strip_nr brightness freq)) = numPixels s.
Proof.
  destruct (updateStrip_shape p s strip_nr brightness freq)
    as [-> | (p' & c & _ & ->)]; [ reflexivity | apply fill_numPixels ].
Qed.

(** X14. No program ever changes the length of the strip, its pins or
    its brightness register, whatever the strip number, the readings
    and the pixels before; and a call for strip 0 leaves all pixels of
    the strip in one single colour. *)
Theorem updateStrip_keeps_strip p s strip_nr brightness freq :
  numPixels (snd (updateStrip p s strip_nr brightness freq)) = numPixels s /\
  pins (snd (updateStrip p s strip_nr brightness freq)) = pins s /\
  brightness_ (snd (updateStrip p s strip_nr brightness freq)) = brightness_ s /\
  (strip_nr = 0 ->
   exists c, pixels (snd (updateStrip p s strip_nr brightness freq)) =
             repeat c (numPixels s)).
Proof.
  split; [ apply updateStrip_numPixels | ].
  destruct (Z.eq_dec strip_nr 0) as [-> | Hne].
  - destruct (updateStrip_zero p brightness freq) as (p' & c & H).
    rewrite H. cbn [snd].
    split; [ apply fill_pins | ]. split; [ apply fill_brightness | ].
    intros _. exists c. apply fill_pixels.
  - rewrite updateStrip_skip by exact Hne. cbn [snd].
    repeat split. intros E0. contradiction.
Qed.

(** One call of a program for strip 0, on the program and the strip. *)
Local Abbreviation tick0 brightness freq :=
  (fun ps : LedProgram * Adafruit_DotStar =>
     updateStrip (fst ps) (snd ps) 0 brightness freq).

(** X15. [RgbBlinkerProg] has period six: with [rgb] one of 0, 1, 2, six
    calls for strip 0 bring [on] and [rgb] back.  A call that switches
    [on] on moves [rgb] one further (0, 1, 2, 0) and paints that colour,
    so the colour after red (0) is green; a call that switches [on] off
    paints black and leaves [rgb]. *)
Theorem rgb_blinker_period on rgb s brightness freq :
  rgb = 0 \/ rgb = 1 \/ rgb = 2 ->
  fst (Nat.iter 6 (tick0 brightness freq) (RgbBlinkerProg on rgb, s)) =
    RgbBlinkerProg on rgb /\
  updateStrip (RgbBlinkerProg false rgb) s 0 brightness freq =
    (RgbBlinkerProg true (if rgb =? 2 then 0 else rgb + 1),
     fill s (if rgb =? 0 then Color 0 255 0
             else if rgb =? 1 then Color 0 0 255 else Color 255 0 0)) /\
  updateStrip (RgbBlinkerProg true rgb) s 0 brightness freq =
    (RgbBlinkerProg false rgb, fill s (Color 0 0 0)).
Proof.
  intros [-> | [-> | ->]]; destruct on; repeat split; reflexivity.
Qed.

Lemma rgb_blinker_period_witness :
  fst (Nat.iter 6 (tick0 0 0) (RgbBlinkerProg false 0, Monger.strip_start)) =
    RgbBlinkerProg false 0.
Proof.
  assert (H : 0 = 0 \/ 0 = 1 \/ 0 = 2) by (left; reflexivity).
  destruct (rgb_blinker_period false 0 Monger.strip_start 0 0 H) as (E & _).
  exact E.
Defined.

End ProgramsMore.

(** ** The loop: two passes, the strip after a pass, bounds *)

Section RenderingMore.

Import Led Monger.

Lemma for_range_snoc {S : Type} (body : nat -> S -> S) : forall n first s,
  for_range first (Datatypes.S n) body s =
  body (first + n)%nat (for_range first n body s).
Proof.
  induction n as [ | n IH ]; intros first s.
  - cbn [for_range]. now rewrite Nat.add_0_r.
  - rewrite for_range_S, IH. cbn [for_range].
    now rewrite Nat.add_succ_r.
Qed.

Lemma loop_render_pixels brightness freq t :
  pixels (strip (loop_render brightness freq t)) =
  pixels (snd (updateStrip (prog t) (updatePins (strip t) HwSpi) 0 brightness freq)).
Proof. now destruct (loop_render_trace brightness freq t) as (_ & H & _). Qed.

Lemma loop_render_numPixels brightness freq t :
  numPixels (strip (loop_render brightness freq t)) = numPixels (strip t).
Proof.
  unfold numPixels at 1. rewrite loop_render_pixels.
  change (length (pixels ?s)) with (numPixels s).
  now rewrite updateStrip_numPixels.
Qed.

(** X16. The blinker changes once per pass: from one pass to the next
    all eight strips go from white to black or from black to white, and
    after two passes the blinker is as it was. *)
Theorem blinker_alternates on s b1 f1 b2 f2 :
  let t1 := loop_render b1 f1
              {| prog := BlinkerProg on; strip := s; events := [] |} in
  let t2 := loop_render b2 f2
              {| prog := prog t1; strip := strip t1; events := [] |} in
  let white := repeat (Color 255 255 255) (numPixels s) in
  let black := repeat (Color 0 0 0) (numPixels s) in
  frames (events t1) = repeat (if on then black else white) nr_strips /\
  frames (events t2) = repeat (if on then white else black) nr_strips /\
  prog t1 = BlinkerProg (negb on) /\
  prog t2 = BlinkerProg on.
Proof.
  intros t1 t2 white black.
  assert (Hp1 : prog t1 = BlinkerProg (negb on)).
  { subst t1.
    destruct (loop_render_trace b1 f1
                {| prog := BlinkerProg on; strip := s; events := [] |}) as (H & _).
    rewrite H. reflexivity. }
  assert (Hn1 : numPixels (strip t1) = numPixels s).
  { subst t1. now rewrite loop_render_numPixels. }
  assert (Hp2 : prog t2 = BlinkerProg on).
  { subst t2.
    destruct (loop_render_trace b2 f2
                {| prog := prog t1; strip := strip t1; events := [] |}) as (H & _).
    rewrite H. cbn [prog strip]. rewrite Hp1. cbn. now rewrite negb_involutive. }
  repeat split; try assumption.
  - subst t1. rewrite loop_render_frames. f_equal.
    cbn [updateStrip]. unfold BlinkerProg_updateStrip. cbn [Z.eqb negb snd].
    rewrite fill_pixels. subst white black. destruct on; reflexivity.
  - subst t2. rewrite loop_render_frames. f_equal. rewrite Hp1.
    cbn [updateStrip]. unfold BlinkerProg_updateStrip. cbn [Z.eqb negb snd].
    rewrite fill_pixels.
    change (numPixels (updatePins (strip t1) HwSpi)) with (numPixels (strip t1)).
    rewrite Hn1. subst white black. destruct on; reflexivity.
Qed.

Lemma loop_body_strip brightness freq i t :
  (0 < i < 256)%nat ->
  brightness_ (strip (loop_body brightness freq i t)) =
    u8 (brightness / (maxBrightness / 255)) /\
  pins (strip (loop_body brightness freq i t)) = strip_pins i.
Proof.
  intros Hi. unfold loop_body.
  rewrite updateStrip_skip by (rewrite u8_small; lia).
  split; reflexivity.
Qed.

(** X17. After a pass the strip is bound to the pins of the last strip,
    39 and 38, it has as many pixels as before, and its brightness
    register holds a quarter of the brightness reading: for a reading
    of the ADC that is a byte, so nothing wraps. *)
Theorem strip_after_pass brightness freq t :
  0 <= brightness <= 1023 ->
  brightness_ (strip (loop_render brightness freq t)) = brightness / 4 /\
  0 <= brightness / 4 <= 255 /\
  pins (strip (loop_render brightness freq t)) = SoftSpi 39 38 /\
  numPixels (strip (loop_render brightness freq t)) = numPixels (strip t).
Proof.
  intros Hb.
  assert (Hq : 0 <= brightness / 4 <= 255).
  { split; [ apply Z.div_pos; lia | ].
    assert (brightness / 4 < 256) by (apply Z.div_lt_upper_bound; lia). lia. }
  assert (Hlast : loop_render brightness freq t =
                  loop_body brightness freq 7
                    (for_range 0 7 (loop_body brightness freq) t))
    by (apply (for_range_snoc (loop_body brightness freq) 7 0)).
  destruct (loop_body_strip brightness freq 7
              (for_range 0 7 (loop_body brightness freq) t)) as [Hbr Hpins];
    [ lia | ].
  split; [ | split; [ exact Hq | split ] ].
  - rewrite Hlast, Hbr. change (maxBrightness / 255) with 4. apply u8_small. lia.
  - rewrite Hlast, Hpins. reflexivity.
  - apply loop_render_numPixels.
Qed.

Lemma strip_after_pass_witness :
  brightness_
    (strip (loop_render 1023 0
              {| prog := SingleColorProg; strip := strip_start; events := [] |}))
    = 255.
Proof.
  assert (Hb : 0 <= 1023 <= 1023) by lia.
  destruct (strip_after_pass 1023 0
              {| prog := SingleColorProg; strip := strip_start; events := [] |} Hb)
    as (H & _).
  exact H.
Defined.

Lemma Some_eq_inv {A : Type} (x y : A) : Some x = Some y -> x = y.
Proof. intros H. now injection H. Qed.

(** What every state of the sketch keeps. *)
Lemma sketch_reach_inv s :
  sketch_reach s ->
  Rotary.max_index_ (rot s) = nr_progs /\
  length (progs s) = Z.to_nat nr_progs /\
  numPixels (the_strip s) = leds_per_strip.
Proof.
  induction 1 as [ a b | s a b _ IH | s s' freq brightness _ IH Hl ].
  - repeat split.
  - destruct IH as (H1 & H2 & H3). cbn [isr_sketch rot progs the_strip].
    rewrite pin_isr_body_max. auto.
  - destruct IH as (H1 & H2 & H3). unfold loop in Hl.
    destruct (progs s !! Z.to_nat (Rotary.getIndex (rot s))) as [p | ];
      [ | discriminate ].
    apply Some_eq_inv in Hl. subst s'. cbn [rot progs the_strip].
    rewrite length_insert, loop_render_numPixels. auto.
Qed.



End RenderingMore.

(** ** Pacing: the interval over the range of readings *)

Section PacingMore.

Import Monger.

Lemma Int_part_IZR z : Int_part (IZR z) = z.
Proof. symmetry. apply Int_part_spec. lra. Qed.

Lemma ln_mono (x y : R) : (0 < x)%R -> (x <= y)%R -> (ln x <= ln y)%R.
Proof.
  intros Hx [Hlt | ->]; [ left; now apply ln_increasing | lra ].
Qed.

Lemma ln_3_ge_1 : (1 <= ln 3)%R.
Proof.
  rewrite <- (ln_exp 1) at 1. apply ln_mono; [ apply exp_pos | exact exp_le_3 ].
Qed.

Lemma ln_2_lt_999 : (ln 2 < 999 / 1000)%R.
Proof.
  rewrite <- (ln_exp (999 / 1000)). apply ln_increasing; [ lra | ].
  replace (999 / 1000)%R with (999 / 2000 + 999 / 2000)%R by lra.
  rewrite exp_plus.
  assert (H : (1 + 999 / 2000 < exp (999 / 2000))%R) by (apply exp_ineq1; lra).
  nra.
Qed.

(** X19. From the reading 2 on the interval is a defined number of
    milliseconds, at most 2000, and a higher reading never gives a
    longer interval.  The delay at the end of a pass, if there is one,
    fills the pass up to the interval. *)
Theorem interval_of_readings f1 f2 :
  2 <= f1 <= f2 ->
  exists q1 q2,
    interval_millis f1 = Some q1 /\ interval_millis f2 = Some q2 /\
    0 <= q2 <= q1 /\ q1 <= 2000 /\
    (forall loop_time,
       match sleep_time loop_time q1 with
       | Some d => 0 < d /\ loop_time + d = q1
       | None => q1 <= loop_time
       end).
Proof.
  intros H.
  destruct (interval_millis_from_2 f1) as [E1 B1]; [ lia | ].
  destruct (interval_millis_from_2 f2) as [E2 B2]; [ lia | ].
  eexists _, _. split; [ exact E1 | ]. split; [ exact E2 | ].
  pose proof (interval_millis_antitone f1 f2 _ _ H E1 E2).
  split; [ lia | ]. split; [ lia | ].
  intros loop_time. unfold sleep_time.
  destruct (Z.ltb_spec loop_time (Int_part (1000 / ln (IZR f1)))); lia.
Qed.

Lemma interval_of_readings_witness :
  exists q1 q2,
    interval_millis 2 = Some q1 /\ interval_millis 1023 = Some q2 /\ q2 <= q1.
Proof.
  assert (H : 2 <= 2 <= 1023) by lia.
  destruct (interval_of_readings 2 1023 H) as (q1 & q2 & E1 & E2 & Hq & _).
  exists q1, q2. split; [ exact E1 | ]. split; [ exact E2 | lia ].
Defined.

(** X20. The interval is not longest at the reading 0.  The reading 0
    gives 1000 ms; the reading 2 gives more than 1000 ms; every reading
    from 3 on gives at most 1000 ms.  The slowest setting is the
    reading 2. *)
Theorem slowest_reading_is_two :
  interval_millis 0 = Some 1000 /\
  (exists q, interval_millis 2 = Some q /\ 1000 < q) /\
  (forall f, 3 <= f -> exists q, interval_millis f = Some q /\ q <= 1000).
Proof.
  split; [ exact interval_millis_zero | ]. split.
  - destruct (interval_millis_from_2 2) as [E _]; [ lia | ].
    eexists. split; [ exact E | ].
    assert (H : 1001 <= Int_part (1000 / ln 2)).
    { rewrite <- (Int_part_IZR 1001). apply Int_part_mono.
      pose proof ln_2_lt_999. pose proof ln_lt_2.
      apply Rmult_le_reg_r with (ln 2); [ lra | ].
      unfold Rdiv. rewrite Rmult_assoc, Rinv_l by lra. lra. }
    lia.
  - intros f Hf. destruct (interval_millis_from_2 f) as [E _]; [ lia | ].
    eexists. split; [ exact E | ].
    rewrite <- (Int_part_IZR 1000) at 2. apply Int_part_mono.
    assert (H1 : (1 <= ln (IZR f))%R).
    { apply Rle_trans with (ln 3); [ exact ln_3_ge_1 | ].
      apply ln_mono; [ lra | apply IZR_le; lia ]. }
    apply Rmult_le_reg_r with (ln (IZR f)); [ lra | ].
    unfold Rdiv. rewrite Rmult_assoc, Rinv_l by lra. lra.
Qed.

End PacingMore.

(** ** The decoder: registration and turns that cancel *)

Section DecoderRoundTrips.

Import Rotary.

(** X21. Registration round trip.  A decoder built while no decoder is
    registered becomes the registered one, and the handler then works
    on it: it reads the two pins of that decoder and stores the result
    of the step back into that object, leaving every other object, the
    registration and the attached interrupts as they were. *)
Theorem first_instance_is_served this pin_a pin_b max_index seg rd rd' (w : World) :
  instance_ w = None ->
  let w1 := RotaryEncoder_ctor this pin_a pin_b max_index seg rd w in
  let enc := RotaryEncoder_new pin_a pin_b max_index seg
               (rd (u8 pin_a)) (rd (u8 pin_b)) in
  exists w2,
    pin_isr rd' w1 = Some w2 /\
    heap w2 !! this = Some (pin_isr_body enc (rd' (u8 pin_a)) (rd' (u8 pin_b))) /\
    instance_ w2 = Some this /\
    attached w2 = attached w1 /\
    (forall q, q <> this -> heap w2 !! q = heap w !! q).
Proof.
  intros Hi w1 enc.
  assert (Hi1 : instance_ w1 = Some this) by (now apply ctor_registers_first).
  assert (Hh1 : heap w1 !! this = Some enc).
  { subst w1. unfold RotaryEncoder_ctor. cbn [heap]. apply lookup_insert_eq. }
  unfold pin_isr. rewrite Hi1, Hh1. eexists. split; [ reflexivity | ].
  cbn [heap instance_ attached].
  split; [ apply lookup_insert_eq | ]. split; [ reflexivity | ].
  split; [ reflexivity | ].
  intros q Hq. rewrite lookup_insert_ne by congruence.
  subst w1. unfold RotaryEncoder_ctor. cbn [heap].
  apply lookup_insert_ne. congruence.
Qed.

Lemma first_instance_is_served_witness :
  exists w2,
    pin_isr (fun _ => LOW)
      (RotaryEncoder_ctor 1 18 19 4 [] (fun _ => HIGH) World_start) = Some w2 /\
    instance_ w2 = Some 1%positive.
Proof.
  assert (Hi : instance_ World_start = None) by reflexivity.
  destruct (first_instance_is_served 1 18 19 4 [] (fun _ => HIGH) (fun _ => LOW)
              World_start Hi) as (w2 & H1 & _ & H2 & _).
  exists w2. split; [ exact H1 | exact H2 ].
Defined.

(** X22. Turns that cancel.  On a decoder at rest, clean quarter turns
    in any order of which as many are clockwise as counter-clockwise, or
    whose difference is a multiple of 256, leave the counter where it
    was and the decoder at rest; so a turn one way and a turn back
    always cancel, also across the wrap between 255 and 0. *)
Theorem cancelling_turns_restore_counter enc ds :
  reachable enc -> enc_prev_pos_ enc = 0 ->
  (count_cw ds - count_ccw ds) mod 256 = 0 ->
  rotary_index_ (run_turns enc ds) = rotary_index_ enc /\
  enc_prev_pos_ (run_turns enc ds) = 0 /\
  enc_flags_ (run_turns enc ds) = 0 /\
  getIndex (run_turns enc ds) = getIndex enc.
Proof.
  intros Hr Hp Hz.
  destruct (reachable_wf _ Hr) as (_ & Hi & Hf). specialize (Hf Hp).
  destruct (reachable_wf _ (run_turns_reachable ds enc Hr)) as (_ & Hi' & _).
  destruct (run_turns_idle ds enc Hp Hf) as (Hp' & Hf' & Hm & Hx).
  assert (Hidx : rotary_index_ (run_turns enc ds) = rotary_index_ enc).
  { rewrite (u8_small _ Hi') in Hx. rewrite Hx. unfold u8 in *.
    rewrite Zplus_mod, Hz, Z.add_0_r, Zmod_mod. now apply Z.mod_small. }
  repeat split; try assumption.
  unfold getIndex. now rewrite Hidx, Hm.
Qed.

Lemma cancelling_turns_restore_counter_witness :
  rotary_index_
    (run_turns (RotaryEncoder_new 18 19 4 [] HIGH HIGH) [CCW; CW; CW; CCW]) = 0.
Proof.
  assert (Hr : reachable (RotaryEncoder_new 18 19 4 [] HIGH HIGH)) by constructor.
  assert (Hp : enc_prev_pos_ (RotaryEncoder_new 18 19 4 [] HIGH HIGH) = 0)
    by reflexivity.
  assert (Hz : (count_cw [CCW; CW; CW; CCW] - count_ccw [CCW; CW; CW; CCW]) mod 256 = 0)
    by reflexivity.
  destruct (cancelling_turns_restore_counter _ [CCW; CW; CW; CCW] Hr Hp Hz) as (H & _).
  exact H.
Defined.

End DecoderRoundTrips.
